(** * The dedicated shooter server: sessions, projectiles, tick, broadcast

    A shallow embedding of [server/dedicated_server.py] (with the constants
    of [shooter/config.py]) and the properties of its session registry,
    projectile store, world tick, broadcast and discovery service.

    Conventions of the embedding.
    - Python [float] is IEEE binary64: the primitive floats of Rocq. Fields
      have the types of their annotations ([health : int],
      [position : list[float]]); a position may have any length.
    - A Python [dict] keeps insertion order and the tick credits the first
      session in iteration order, so both registries are association lists
      in insertion order.
    - [asyncio.StreamWriter] objects live in a store indexed by a reference;
      a [PlayerState] holds the reference, so that two sessions created over
      one connection share one writer, as in the source. A writer records
      the payloads passed to [write]; their JSON encoding is not modelled.
    - Exceptions are results: a function returns the state it has reached
      together with the exception that left it, if any.
    - [time.time()] and [uuid.uuid4().hex] are inputs of the operation that
      calls them.
    - Every coroutine runs without interleaving between its suspension
      points (one logical lock, as the design document asks). *)

From Stdlib Require Import ZArith List String Ascii Bool Lia.
From Stdlib Require Import PrimFloat DecimalString DecimalZ.
From stdpp Require Import gmap strings list.

Local Open Scope Z_scope.
Set Warnings "-inexact-float".

(** ** Constants ([shooter/config.py]) *)

Definition PLAYER_RADIUS : float := 0.8%float.
Definition BULLET_SPEED : float := 18.0%float.
Definition BULLET_LIFETIME : float := 3.0%float.
Definition BULLET_DAMAGE : Z := 25.
Definition RESPAWN_HEIGHT : float := 3.0%float.

(** The point [[0.0, RESPAWN_HEIGHT, 0.0]] used by join and by respawn. *)
Definition respawn_point : list float := [0.0%float; RESPAWN_HEIGHT; 0.0%float].

(** ** Exceptions and results *)

Inductive exn : Type :=
| ConnectionResetError
| BrokenPipeError        (* any other error the transport reports *)
| IndexError
| AttributeError
| UnicodeDecodeError.

Inductive outcome (A : Type) : Type :=
| Returned (a : A)
| Raised (e : exn).
Arguments Returned {A} a.
Arguments Raised {A} e.

(** ** Python dictionaries in insertion order *)

Section Dict.
Context {V : Type}.

(** [d.get(k)] *)
Fixpoint dict_get (k : string) (d : list (string * V)) : option V :=
  match d with
  | [] => None
  | (k', v) :: rest => if decide (k' = k) then Some v else dict_get k rest
  end.

(** [d[k] = v]: an existing key keeps its place, a new key goes last. *)
Fixpoint dict_set (k : string) (v : V) (d : list (string * V)) : list (string * V) :=
  match d with
  | [] => [(k, v)]
  | (k', v') :: rest =>
      if decide (k' = k) then (k', v) :: rest else (k', v') :: dict_set k v rest
  end.

(** [d.pop(k, None)], and [del d[k]] behind a [k in d] test. *)
Fixpoint dict_pop (k : string) (d : list (string * V)) : list (string * V) :=
  match d with
  | [] => []
  | (k', v) :: rest =>
      if decide (k' = k) then dict_pop k rest else (k', v) :: dict_pop k rest
  end.

(** [k in d] *)
Definition dict_in (k : string) (d : list (string * V)) : bool :=
  bool_decide (k ∈ d.*1).
End Dict.

(** ** Records *)

(** What the server writes to a client: the dictionary handed to
    [json.dumps]; the encoding to a line of bytes is not modelled. *)
Record PlayerView : Type := mkPlayerView {
  pv_id : string;
  pv_name : string;
  pv_position : list float;
  pv_rotation_y : float;
  pv_health : Z
}.

Inductive payload : Type :=
| ErrorMsg (message : string)
| WelcomeMsg (player_id : string)
| DamageMsg (amount : Z)
| WorldStateMsg (players : list PlayerView) (projectiles : list (string * list float)).

(** An [asyncio.StreamWriter]: what was passed to [write], the exception
    the transport reported when the connection was lost (if any), and
    whether [close] was called. *)
Record StreamWriter : Type := mkStreamWriter {
  written : list payload;
  lost : option exn;
  closing : bool
}.

Module PlayerState.
Record t : Type := mk {
  writer : nat;             (* reference into the store of writers *)
  name : string;
  position : list float;
  rotation_y : float;
  health : Z;
  last_update : float
}.
Definition set_position (v : list float) (p : t) : t :=
  mk (writer p) (name p) v (rotation_y p) (health p) (last_update p).
Definition set_rotation_y (v : float) (p : t) : t :=
  mk (writer p) (name p) (position p) v (health p) (last_update p).
Definition set_health (v : Z) (p : t) : t :=
  mk (writer p) (name p) (position p) (rotation_y p) v (last_update p).
Definition set_last_update (v : float) (p : t) : t :=
  mk (writer p) (name p) (position p) (rotation_y p) (health p) v.
End PlayerState.

Module Bullet.
Record t : Type := mk {
  id : string;
  owner_id : string;
  position : list float;
  direction : list float;
  created_at : float
}.
Definition set_position (v : list float) (b : t) : t :=
  mk (id b) (owner_id b) v (direction b) (created_at b).
End Bullet.

Module ShooterServer.
Record t : Type := mk {
  host : string;
  port : Z;
  name : string;
  max_players : Z;
  players : list (string * PlayerState.t);
  bullets : list (string * Bullet.t);
  streams : gmap nat StreamWriter     (* the writer objects *)
}.
Definition set_players (v : list (string * PlayerState.t)) (s : t) : t :=
  mk (host s) (port s) (name s) (max_players s) v (bullets s) (streams s).
Definition set_bullets (v : list (string * Bullet.t)) (s : t) : t :=
  mk (host s) (port s) (name s) (max_players s) (players s) v (streams s).
Definition set_streams (v : gmap nat StreamWriter) (s : t) : t :=
  mk (host s) (port s) (name s) (max_players s) (players s) (bullets s) v.

(** [ShooterServer.__init__] *)
Definition init (host : string) (port : Z) (name : string) (max_players : Z) : t :=
  mk host port name max_players [] [] ∅.
End ShooterServer.

(** ** Stream writers *)

(** The writer after more payloads were passed to [write]. *)
Definition buffered (data : list payload) (sw : StreamWriter) : StreamWriter :=
  mkStreamWriter (written sw ++ data) (lost sw) (closing sw).

(** [writer.write(data)] *)
Definition write (w : nat) (data : payload) (streams : gmap nat StreamWriter)
  : gmap nat StreamWriter :=
  alter (buffered [data]) w streams.

(** [await writer.drain()], [None] when it returns: it raises the
    exception the transport reported with the loss of the connection, or
    [ConnectionResetError] once the connection is closed without one. *)
Definition drain (w : nat) (streams : gmap nat StreamWriter) : option exn :=
  match streams !! w with
  | Some sw =>
      match lost sw with
      | Some e => Some e
      | None => if closing sw then Some ConnectionResetError else None
      end
  | None => None
  end.

(** [ShooterServer._send_message] *)
Definition _send_message (w : nat) (data : payload) (streams : gmap nat StreamWriter)
  : gmap nat StreamWriter * option exn :=
  let streams' := write w data streams in (streams', drain w streams').

(** ** Geometry *)

(** [_distance_sq]: [sum((x - y) ** 2 for x, y in zip(a, b))]. The square
    is the product and the sum runs from the left, starting at 0; [zip]
    stops at the shorter list. (A compensated [sum] may differ in the last
    place; the scenarios below have one non-zero term.) *)
Definition _distance_sq (a b : list float) : float :=
  fold_left PrimFloat.add
            (zip_with (fun x y => PrimFloat.mul (x - y) (x - y))%float a b)
            0%float.

(** [_distance_sq(bullet.position, player.position) <= PLAYER_RADIUS ** 2] *)
Definition in_range (bullet : Bullet.t) (player : PlayerState.t) : bool :=
  PrimFloat.leb (_distance_sq (Bullet.position bullet) (PlayerState.position player))
                (PLAYER_RADIUS * PLAYER_RADIUS)%float.

(** [time.time() - bullet.created_at > BULLET_LIFETIME] *)
Definition expired (now : float) (bullet : Bullet.t) : bool :=
  PrimFloat.ltb BULLET_LIFETIME (now - Bullet.created_at bullet)%float.

(** ** The world tick: [_update_bullets] *)

(** [bullet.position[i] += bullet.direction[i] * BULLET_SPEED * dt] *)
Definition advance_axis (i : nat) (dt : float) (bullet : Bullet.t) : outcome Bullet.t :=
  match Bullet.position bullet !! i, Bullet.direction bullet !! i with
  | Some x, Some d =>
      Returned (Bullet.set_position
                  (<[i := (x + d * BULLET_SPEED * dt)%float]> (Bullet.position bullet))
                  bullet)
  | _, _ => Raised IndexError
  end.

(** The three assignments of lines 145-147; the bullet is mutated in
    place, so an [IndexError] leaves the earlier axes advanced. *)
Definition advance (dt : float) (bullet : Bullet.t) : Bullet.t * option exn :=
  match advance_axis 0 dt bullet with
  | Raised e => (bullet, Some e)
  | Returned b0 =>
      match advance_axis 1 dt b0 with
      | Raised e => (b0, Some e)
      | Returned b1 =>
          match advance_axis 2 dt b1 with
          | Raised e => (b1, Some e)
          | Returned b2 => (b2, None)
          end
      end
  end.

(** Lines 155-160 on the session that is hit: the damage, then the
    notification, then the respawn test. *)
Definition damaged (player : PlayerState.t) : PlayerState.t :=
  PlayerState.set_health (PlayerState.health player - BULLET_DAMAGE) player.

Definition respawned (player : PlayerState.t) : PlayerState.t :=
  if (PlayerState.health player <=? 0)%Z
  then PlayerState.set_health 100 (PlayerState.set_position respawn_point player)
  else player.

(** The inner loop, lines 151-162: the sessions in iteration order, the
    owner skipped, the first one in range hit, then [break]. The result
    tells whether the bullet was appended to [to_remove]. *)
Fixpoint scan_players (bullet : Bullet.t) (ps : list (string * PlayerState.t))
    (streams : gmap nat StreamWriter)
  : list (string * PlayerState.t) * gmap nat StreamWriter * outcome bool :=
  match ps with
  | [] => ([], streams, Returned false)
  | (pid, player) :: rest =>
      if decide (pid = Bullet.owner_id bullet) then
        let '(rest', streams', r) := scan_players bullet rest streams in
        ((pid, player) :: rest', streams', r)
      else if in_range bullet player then
        let player1 := damaged player in
        let '(streams', sent) :=
          _send_message (PlayerState.writer player1) (DamageMsg BULLET_DAMAGE) streams in
        match sent with
        | Some e => ((pid, player1) :: rest, streams', Raised e)
        | None => ((pid, respawned player1) :: rest, streams', Returned true)
        end
      else
        let '(rest', streams', r) := scan_players bullet rest streams in
        ((pid, player) :: rest', streams', r)
  end.

(** One iteration of the outer loop, lines 145-162, at clock reading
    [now]. The boolean tells whether the bullet id went to [to_remove]. *)
Definition bullet_step (dt now : float) (bullet : Bullet.t)
    (ps : list (string * PlayerState.t)) (streams : gmap nat StreamWriter)
  : Bullet.t * list (string * PlayerState.t) * gmap nat StreamWriter * outcome bool :=
  match advance dt bullet with
  | (bullet', Some e) => (bullet', ps, streams, Raised e)
  | (bullet', None) =>
      if expired now bullet' then (bullet', ps, streams, Returned true)
      else
        let '(ps', streams', r) := scan_players bullet' ps streams in
        (bullet', ps', streams', r)
  end.

(** The outer loop over [list(self.bullets.items())]; [clock k] is what
    the [k]-th call of [time.time()] returns. *)
Fixpoint each_bullet (dt : float) (clock : nat -> float) (k : nat)
    (items : list (string * Bullet.t)) (ps : list (string * PlayerState.t))
    (streams : gmap nat StreamWriter) (to_remove : list string)
  : list (string * Bullet.t) * list (string * PlayerState.t)
    * gmap nat StreamWriter * list string * option exn :=
  match items with
  | [] => ([], ps, streams, to_remove, None)
  | (bullet_id, bullet) :: rest =>
      match bullet_step dt (clock k) bullet ps streams with
      | (bullet', ps', streams', Raised e) =>
          ((bullet_id, bullet') :: rest, ps', streams', to_remove, Some e)
      | (bullet', ps', streams', Returned gone) =>
          let to_remove' := if gone then to_remove ++ [bullet_id] else to_remove in
          let '(rest', ps'', streams'', rm, r) :=
            each_bullet dt clock (S k) rest ps' streams' to_remove' in
          ((bullet_id, bullet') :: rest', ps'', streams'', rm, r)
      end
  end.

(** Lines 163-164. *)
Definition pop_all (to_remove : list string) (bs : list (string * Bullet.t))
  : list (string * Bullet.t) :=
  fold_left (fun d bullet_id => dict_pop bullet_id d) to_remove bs.

(** [ShooterServer._update_bullets] *)
Definition _update_bullets (dt : float) (clock : nat -> float) (s : ShooterServer.t)
  : ShooterServer.t * option exn :=
  let '(bs, ps, streams, to_remove, r) :=
    each_bullet dt clock 0 (ShooterServer.bullets s) (ShooterServer.players s)
                (ShooterServer.streams s) [] in
  let s1 := ShooterServer.set_streams streams (ShooterServer.set_players ps s) in
  match r with
  | Some e => (ShooterServer.set_bullets bs s1, Some e)
  | None => (ShooterServer.set_bullets (pop_all to_remove bs) s1, None)
  end.

(** ** Broadcast: [_broadcast_state] *)

Definition player_view (entry : string * PlayerState.t) : PlayerView :=
  let '(pid, player) := entry in
  mkPlayerView pid (PlayerState.name player) (PlayerState.position player)
               (PlayerState.rotation_y player) (PlayerState.health player).

Definition projectile_view (entry : string * Bullet.t) : string * list float :=
  (Bullet.id entry.2, Bullet.position entry.2).

(** The payload of lines 167-182. *)
Definition world_state (s : ShooterServer.t) : payload :=
  WorldStateMsg (map player_view (ShooterServer.players s))
                (map projectile_view (ShooterServer.bullets s)).

(** Lines 184-189: only [ConnectionResetError] is caught. *)
Fixpoint send_each (message : payload) (recipients : list PlayerState.t)
    (streams : gmap nat StreamWriter) : gmap nat StreamWriter * option exn :=
  match recipients with
  | [] => (streams, None)
  | player :: rest =>
      let streams' := write (PlayerState.writer player) message streams in
      match drain (PlayerState.writer player) streams' with
      | None => send_each message rest streams'
      | Some ConnectionResetError => send_each message rest streams'
      | Some e => (streams', Some e)
      end
  end.

Definition _broadcast_state (s : ShooterServer.t) : ShooterServer.t * option exn :=
  let '(streams', r) :=
    send_each (world_state s) (ShooterServer.players s).*2 (ShooterServer.streams s) in
  (ShooterServer.set_streams streams' s, r).

(** One turn of the loop of [_world_tick]: the bullets, then the
    broadcast; an exception of the first ends the task before the second. *)
Definition world_tick_turn (dt : float) (clock : nat -> float) (s : ShooterServer.t)
  : ShooterServer.t * option exn :=
  match _update_bullets dt clock s with
  | (s1, Some e) => (s1, Some e)
  | (s1, None) => _broadcast_state s1
  end.

(** [1.0 / NETWORK_CONFIG.tick_rate] *)
Definition tick_interval : float := (1.0 / 30.0)%float.

(** ** Discovery: [_discovery_loop] *)

(** The bytes that [bytes.strip()] removes. *)
Definition is_space (c : ascii) : bool :=
  let n := nat_of_ascii c in
  (Nat.eqb n 32 || (Nat.leb 9 n && Nat.leb n 13))%bool.

Fixpoint lstrip (data : string) : string :=
  match data with
  | String c rest => if is_space c then lstrip rest else data
  | EmptyString => EmptyString
  end.

Fixpoint rstrip (data : string) : string :=
  match data with
  | String c rest =>
      match rstrip rest with
      | EmptyString => if is_space c then EmptyString else String c EmptyString
      | kept => String c kept
      end
  | EmptyString => EmptyString
  end.

Definition strip (data : string) : string := rstrip (lstrip data).

(** [str(n)] for an integer. *)
Definition str_of_int (n : Z) : string := NilZero.string_of_int (Z.to_int n).

Definition newline : string := String (ascii_of_nat 10) EmptyString.

(** Line 205. *)
Definition discovery_response (s : ShooterServer.t) : string :=
  ("SERVER " +:+ ShooterServer.name s +:+ " " +:+ str_of_int (ShooterServer.port s)
   +:+ " " +:+ str_of_int (Z.of_nat (length (ShooterServer.players s)))
   +:+ " " +:+ str_of_int (ShooterServer.max_players s) +:+ newline)%string.

(** One turn of the discovery loop on a datagram from [addr]:
    [recvfrom(512)] keeps the first 512 bytes; the result is the list of
    [sendto] calls. *)
Definition discovery_turn {A : Type} (s : ShooterServer.t) (datagram : string) (addr : A)
  : list (string * A) :=
  let data := substring 0 512 datagram in
  if decide (strip data = "DISCOVER"%string)
  then [(discovery_response s, addr)]
  else [].

(** ** The connection handler: [_handle_client] *)

(** A decoded JSON object, seen through the [message.get] calls of the
    handler, with the types of the wire protocol. *)
Record Message : Type := mkMessage {
  msg_type : option string;
  msg_name : option string;
  msg_position : option (list float);
  msg_rotation_y : option float;
  msg_health : option Z;
  msg_origin : option (list float);
  msg_direction : option (list float)
}.

(** A non-empty line as [json.loads(data.decode("utf8"))] sees it. *)
Inductive Line : Type :=
| NotUtf8                      (* [UnicodeDecodeError], not caught *)
| NotJson                      (* [JSONDecodeError], caught: [continue] *)
| NotObject                    (* a JSON value without [get] *)
| Object (message : Message).

(** What one [await reader.readline()] gives, with the values
    [uuid.uuid4().hex] and [time.time()] would return while the line is
    handled. *)
Inductive Read : Type :=
| Eof
| ReadRaises (e : exn)
| Data (line : Line) (uuid : string) (now : float).

Inductive control : Type := Continue | Break.

(** Truth value of [player_id : Optional[str]]. *)
Definition truthy (player_id : option string) : bool :=
  match player_id with
  | Some (String _ _) => true
  | _ => false
  end.

(** Truth value of [origin] and of [direction]. *)
Definition nonempty (v : option (list float)) : bool :=
  match v with
  | Some (_ :: _) => true
  | _ => false
  end.

Definition raised_or (r : option exn) (c : control) : outcome control :=
  match r with
  | Some e => Raised e
  | None => Returned c
  end.

(** Lines 86-103. *)
Definition on_join (w : nat) (uuid : string) (now : float) (message : Message)
    (player_id : option string) (s : ShooterServer.t)
  : ShooterServer.t * option string * outcome control :=
  if (ShooterServer.max_players s <=? Z.of_nat (length (ShooterServer.players s)))%Z then
    let '(streams', r) := _send_message w (ErrorMsg "Server full") (ShooterServer.streams s) in
    (ShooterServer.set_streams streams' s, player_id, raised_or r Break)
  else
    let name := default "Player"%string (msg_name message) in
    let state := PlayerState.mk w name respawn_point 0.0%float 100 now in
    let s1 := ShooterServer.set_players (dict_set uuid state (ShooterServer.players s)) s in
    let '(streams', r) := _send_message w (WelcomeMsg uuid) (ShooterServer.streams s1) in
    (ShooterServer.set_streams streams' s1, Some uuid, raised_or r Continue).

(** Lines 105-111. *)
Definition on_state (now : float) (message : Message) (player_id : string)
    (s : ShooterServer.t) : ShooterServer.t :=
  match dict_get player_id (ShooterServer.players s) with
  | None => s
  | Some state =>
      let state1 :=
        PlayerState.set_position
          (default (PlayerState.position state) (msg_position message)) state in
      let state2 :=
        PlayerState.set_rotation_y
          (default (PlayerState.rotation_y state1) (msg_rotation_y message)) state1 in
      let state3 :=
        PlayerState.set_health
          (default (PlayerState.health state2) (msg_health message)) state2 in
      let state4 := PlayerState.set_last_update now state3 in
      ShooterServer.set_players (dict_set player_id state4 (ShooterServer.players s)) s
  end.

(** Lines 113-123. *)
Definition on_shoot (uuid : string) (now : float) (message : Message) (player_id : string)
    (s : ShooterServer.t) : ShooterServer.t :=
  if nonempty (msg_origin message) && nonempty (msg_direction message) then
    let bullet :=
      Bullet.mk uuid player_id (default [] (msg_origin message))
                (default [] (msg_direction message)) now in
    ShooterServer.set_bullets (dict_set uuid bullet (ShooterServer.bullets s)) s
  else s.

(** The dispatch on [msg_type], lines 85-123. *)
Definition on_message (w : nat) (uuid : string) (now : float) (message : Message)
    (player_id : option string) (s : ShooterServer.t)
  : ShooterServer.t * option string * outcome control :=
  if decide (msg_type message = Some "join"%string) then
    on_join w uuid now message player_id s
  else
    match player_id with
    | Some pid =>
        if bool_decide (msg_type message = Some "state"%string) && truthy player_id then
          (on_state now message pid s, player_id, Returned Continue)
        else if bool_decide (msg_type message = Some "shoot"%string) && truthy player_id then
          (on_shoot uuid now message pid s, player_id, Returned Continue)
        else (s, player_id, Returned Continue)
    | None => (s, player_id, Returned Continue)
    end.

(** One turn of the [while] loop, lines 80-123. *)
Definition handler_turn (w : nat) (r : Read) (player_id : option string)
    (s : ShooterServer.t) : ShooterServer.t * option string * outcome control :=
  match r with
  | Eof => (s, player_id, Returned Break)
  | ReadRaises e => (s, player_id, Raised e)
  | Data NotUtf8 _ _ => (s, player_id, Raised UnicodeDecodeError)
  | Data NotJson _ _ => (s, player_id, Returned Continue)
  | Data NotObject _ _ => (s, player_id, Raised AttributeError)
  | Data (Object message) uuid now => on_message w uuid now message player_id s
  end.

(** [writer.close()] *)
Definition close (w : nat) (streams : gmap nat StreamWriter) : gmap nat StreamWriter :=
  alter (fun sw => mkStreamWriter (written sw) (lost sw) true) w streams.

(** The [finally] clause, lines 126-131. *)
Definition disconnect (w : nat) (player_id : option string) (s : ShooterServer.t)
  : ShooterServer.t :=
  let s1 :=
    match player_id with
    | Some pid =>
        if truthy player_id && dict_in pid (ShooterServer.players s)
        then ShooterServer.set_players (dict_pop pid (ShooterServer.players s)) s
        else s
    | None => s
    end in
  ShooterServer.set_streams (close w (ShooterServer.streams s1)) s1.

(** The loop over what the connection delivers; the end of [input] is
    the end of the stream. *)
Fixpoint read_loop (w : nat) (input : list Read) (player_id : option string)
    (s : ShooterServer.t) : ShooterServer.t * option string * option exn :=
  match input with
  | [] => (s, player_id, None)
  | r :: rest =>
      match handler_turn w r player_id s with
      | (s', pid', Raised e) => (s', pid', Some e)
      | (s', pid', Returned Break) => (s', pid', None)
      | (s', pid', Returned Continue) => read_loop w rest pid' s'
      end
  end.

(** [ShooterServer._handle_client] for the connection whose writer is [w]:
    [ConnectionResetError] is caught, any other exception leaves the
    coroutine after the [finally] clause. *)
Definition _handle_client (w : nat) (input : list Read) (s : ShooterServer.t)
  : ShooterServer.t * option exn :=
  let '(s1, player_id, r) := read_loop w input None s in
  (disconnect w player_id s1,
   match r with
   | Some ConnectionResetError => None
   | other => other
   end).

(** ** The running server: handlers, tick task and environment

    [start] creates the tick task; every accepted connection runs
    [_handle_client] with [player_id] as its local variable. A run of the
    server is a sequence of events, each handled between two suspension
    points. The discovery loop reads the state and never changes it, so it
    is no event. *)

Module System.
Record t : Type := mk {
  server : ShooterServer.t;
  handlers : gmap nat (option string);   (* live handlers: writer ↦ [player_id] *)
  ticking : bool                         (* the [_world_tick] task is alive *)
}.

Definition init (host : string) (port : Z) (name : string) (max_players : Z) : t :=
  mk (ShooterServer.init host port name max_players) ∅ true.
End System.

Inductive Event : Type :=
| Accept (w : nat)                 (* a client connects; its writer is stored at [w] *)
| Receive (w : nat) (r : Read)     (* [readline] of the handler of [w] returns *)
| Lose (w : nat) (e : exn)         (* the transport of [w] reports a lost connection *)
| Tick (clock : nat -> float).     (* the tick task wakes up *)

Definition report_loss (e : exn) (sw : StreamWriter) : StreamWriter :=
  mkStreamWriter (written sw) (Some e) (closing sw).

Definition step (ev : Event) (sys : System.t) : System.t :=
  let s := System.server sys in
  match ev with
  | Accept w =>
      match ShooterServer.streams s !! w with
      | Some _ => sys
      | None =>
          System.mk
            (ShooterServer.set_streams
               (<[w := mkStreamWriter [] None false]> (ShooterServer.streams s)) s)
            (<[w := None]> (System.handlers sys))
            (System.ticking sys)
      end
  | Receive w r =>
      match System.handlers sys !! w with
      | None => sys
      | Some player_id =>
          match handler_turn w r player_id s with
          | (s', pid', Returned Continue) =>
              System.mk s' (<[w := pid']> (System.handlers sys)) (System.ticking sys)
          | (s', pid', _) =>
              System.mk (disconnect w pid' s') (delete w (System.handlers sys))
                        (System.ticking sys)
          end
      end
  | Lose w e =>
      System.mk (ShooterServer.set_streams
                   (alter (report_loss e) w (ShooterServer.streams s)) s)
                (System.handlers sys) (System.ticking sys)
  | Tick clock =>
      if System.ticking sys then
        match world_tick_turn tick_interval clock s with
        | (s', None) => System.mk s' (System.handlers sys) true
        | (s', Some _) => System.mk s' (System.handlers sys) false
        end
      else sys
  end.

Definition run (events : list Event) (sys : System.t) : System.t :=
  fold_left (fun st ev => step ev st) events sys.

(** The identifier [uuid4] hands out while an event is handled, if any. *)
Definition drawn (ev : Event) : option string :=
  match ev with
  | Receive _ (Data (Object _) uuid _) => Some uuid
  | _ => None
  end.

(** ** The discovery client: [DiscoveryClient.scan] ([shooter/network.py])

    The client decodes the datagram before it looks at it, so it works on
    text; the text it decodes is the text the server encoded. A character
    is a code point below 256. *)

Record ServerInfo : Type := mkServerInfo {
  si_name : string;
  si_host : string;
  si_port : Z;
  si_players : Z;
  si_max_players : Z
}.

(** [str.isspace] for one character. *)
Definition is_str_space (c : ascii) : bool :=
  let n := nat_of_ascii c in
  (Nat.eqb n 32 || (Nat.leb 9 n && Nat.leb n 13) || (Nat.leb 28 n && Nat.leb n 31)
   || Nat.eqb n 133 || Nat.eqb n 160)%bool.

Fixpoint str_lstrip (text : string) : string :=
  match text with
  | String c rest => if is_str_space c then str_lstrip rest else text
  | EmptyString => EmptyString
  end.

Fixpoint str_rstrip (text : string) : string :=
  match text with
  | String c rest =>
      match str_rstrip rest with
      | EmptyString => if is_str_space c then EmptyString else String c EmptyString
      | kept => String c kept
      end
  | EmptyString => EmptyString
  end.

(** [text.strip()] *)
Definition str_strip (text : string) : string := str_rstrip (str_lstrip text).

(** [text.split()]: the maximal runs of characters that are not white
    space. *)
Fixpoint str_split (text : string) : list string :=
  match text with
  | EmptyString => []
  | String c rest =>
      if is_str_space c then str_split rest
      else
        match rest with
        | EmptyString => [String c EmptyString]
        | String c' _ =>
            if is_str_space c' then String c EmptyString :: str_split rest
            else
              match str_split rest with
              | w :: ws => String c w :: ws
              | [] => [String c EmptyString]
              end
        end
  end.

Definition digit_value (c : ascii) : option Z :=
  let n := nat_of_ascii c in
  if (Nat.leb 48 n && Nat.leb n 57)%bool then Some (Z.of_nat n - 48) else None.

(** The digits of [int(text)], most significant first: an underscore may
    stand between two digits. *)
Fixpoint int_digits (acc : Z) (after_digit : bool) (text : string) : option Z :=
  match text with
  | EmptyString => if after_digit then Some acc else None
  | String c rest =>
      match digit_value c with
      | Some d => int_digits (acc * 10 + d) true rest
      | None =>
          if (Ascii.eqb c "_" && after_digit)%bool then int_digits acc false rest
          else None
      end
  end.

(** [int(text)]; [None] stands for [ValueError]. *)
Definition int_of_str (text : string) : option Z :=
  match str_strip text with
  | String "-" digits => Z.opp <$> int_digits 0 false digits
  | String "+" digits => int_digits 0 false digits
  | digits => int_digits 0 false digits
  end.

(** What the body of the receive loop makes of one datagram. *)
Inductive scanned : Type :=
| Skipped                       (* [continue] *)
| Listed (info : ServerInfo)
| ScanValueError.               (* [int] raises; [scan] does not catch it *)

(** Lines 48-58 of [network.py] on the decoded text of a datagram from
    [host]. *)
Definition scan_reply (text host : string) : scanned :=
  match str_split (str_strip text) with
  | [tag; name; port; players; max_players] =>
      if decide (tag = "SERVER"%string) then
        match int_of_str port, int_of_str players, int_of_str max_players with
        | Some p, Some n, Some m => Listed (mkServerInfo name host p n m)
        | _, _, _ => ScanValueError
        end
      else Skipped
  | _ => Skipped
  end.

(** The loop of [scan] over the datagrams that arrive before the timeout:
    [servers] is keyed by host; [None] stands for the [ValueError]. *)
Fixpoint scan_loop (replies : list (string * string)) (servers : list (string * ServerInfo))
  : option (list (string * ServerInfo)) :=
  match replies with
  | [] => Some servers
  | (text, host) :: rest =>
      match scan_reply text host with
      | Skipped => scan_loop rest servers
      | Listed info => scan_loop rest (dict_set host info servers)
      | ScanValueError => None
      end
  end.

(** [DiscoveryClient.scan]: [list(servers.values())]. *)
Definition scan (replies : list (string * string)) : option (list ServerInfo) :=
  (fun servers => servers.*2) <$> scan_loop replies [].

(** ** The game client on a damage message ([shooter/game.py])

    [ShooterGame._handle_message] for [{"type": "damage", "amount": amount}]:
    the new health, and whether the player goes to the respawn point. *)
Definition client_on_damage (amount health : Z) : Z * bool :=
  let lowered := Z.max 0 (health - amount) in
  if lowered <=? 0 then (100, true) else (lowered, false).

(** ** The game client's receiver: [NetworkClient._receive_loop]
    ([shooter/network.py])

    What [json.loads(raw.decode("utf8"))] makes of a line: one of the two
    exceptions, a JSON value without [get], or an object. *)
Inductive Decoded (D : Type) : Type :=
| BadUtf8                      (* [UnicodeDecodeError], not caught *)
| BadJson                      (* [JSONDecodeError], caught: [continue] *)
| NoObject                     (* a JSON value without [get] *)
| Dict (message : D).

Arguments BadUtf8 {D}.
Arguments BadJson {D}.
Arguments NoObject {D}.
Arguments Dict {D} message.

(** The two fields of the client the receiver writes. *)
Module NetworkClient.
Record t (D : Type) : Type := mk {
  player_id : option string;
  _messages : list D
}.
Arguments mk {D} player_id _messages.
Arguments player_id {D} t.
Arguments _messages {D} t.
End NetworkClient.

(** What one [sock.recv(4096)] gives. *)
Inductive Recv : Type :=
| Chunk (data : string)
| RecvRaises.                  (* [OSError]: [break] *)

Definition line_feed : ascii := ascii_of_nat 10.

(** [buffer.split(b"\n", 1)] when [b"\n" in buffer], [None] otherwise. *)
Fixpoint split_line (buffer : string) : option (string * string) :=
  match buffer with
  | EmptyString => None
  | String c rest =>
      if decide (c = line_feed) then Some (EmptyString, rest)
      else
        match split_line rest with
        | Some (raw, after) => Some (String c raw, after)
        | None => None
        end
  end.

Section ReceiveLoop.
Context {D : Type}.
Variable loads : string → Decoded D.
Variable get_type : D → option string.
Variable get_player_id : D → option string.

(** Lines 110-118 on one line. *)
Definition on_raw (raw : string) (client : NetworkClient.t D)
  : NetworkClient.t D * option exn :=
  match raw with
  | EmptyString => (client, None)
  | _ =>
      match loads raw with
      | BadUtf8 => (client, Some UnicodeDecodeError)
      | BadJson => (client, None)
      | NoObject => (client, Some AttributeError)
      | Dict message =>
          let player_id :=
            if decide (get_type message = Some "welcome"%string)
            then get_player_id message
            else NetworkClient.player_id client in
          (NetworkClient.mk player_id (NetworkClient._messages client ++ [message]), None)
      end
  end.

(** The inner [while], lines 108-118. Every turn takes at least one byte
    off the buffer, so [fuel] turns are enough for a buffer of [fuel]
    bytes. *)
Fixpoint take_lines (fuel : nat) (buffer : string) (client : NetworkClient.t D)
  : NetworkClient.t D * string * option exn :=
  match fuel with
  | O => (client, buffer, None)
  | S fuel' =>
      match split_line buffer with
      | None => (client, buffer, None)
      | Some (raw, after) =>
          match on_raw raw client with
          | (client', Some e) => (client', after, Some e)
          | (client', None) => take_lines fuel' after client'
          end
      end
  end.

(** The outer [while], lines 100-118; the end of [input] is [close()]
    clearing [_running]. *)
Fixpoint receive_loop (input : list Recv) (buffer : string) (client : NetworkClient.t D)
  : NetworkClient.t D * option exn :=
  match input with
  | [] => (client, None)
  | RecvRaises :: _ => (client, None)
  | Chunk chunk :: rest =>
      match chunk with
      | EmptyString => (client, None)
      | _ =>
          let buffer1 := (buffer +:+ chunk)%string in
          match take_lines (String.length buffer1) buffer1 client with
          | (client', _, Some e) => (client', Some e)
          | (client', buffer', None) => receive_loop rest buffer' client'
          end
      end
  end.

(** [NetworkClient._receive_loop]: [buffer = b""]. *)
Definition _receive_loop (input : list Recv) (client : NetworkClient.t D)
  : NetworkClient.t D * option exn :=
  receive_loop input EmptyString client.

(** The stream read in one pass, byte by byte, with the line begun so far
    in [raw]. *)
Fixpoint read_stream (raw : string) (stream : string) (client : NetworkClient.t D)
  : NetworkClient.t D * string * option exn :=
  match stream with
  | EmptyString => (client, raw, None)
  | String c rest =>
      if decide (c = line_feed) then
        match on_raw raw client with
        | (client', Some e) => (client', rest, Some e)
        | (client', None) => read_stream EmptyString rest client'
        end
      else read_stream (raw +:+ String c EmptyString)%string rest client
  end.
End ReceiveLoop.

(** The bytes of the chunks in one piece. *)
Definition joined (chunks : list string) : string :=
  foldr String.append EmptyString chunks.

(** A decoder for the scenarios: the line "?" is not JSON, the line "!"
    is not UTF-8, the line "[]" is no object, every other line is an
    object that is the line itself, of type welcome when it starts with
    "w". *)
Definition sample_loads (raw : string) : Decoded string :=
  if decide (raw = "?"%string) then BadJson
  else if decide (raw = "!"%string) then BadUtf8
  else if decide (raw = "[]"%string) then NoObject
  else Dict raw.

(** A welcome, a line that is not JSON and a second message, cut into
    chunks inside the lines. *)
Definition sample_chunks : list string :=
  ["wel"; "come" +:+ newline +:+ "?" +:+ newline +:+ "da"; "mage" +:+ newline +:+ "rest"]%string.

Definition fresh_client : NetworkClient.t string := NetworkClient.mk None [].

Definition sample_type (message : string) : option string :=
  match message with
  | String "w" _ => Some "welcome"%string
  | _ => None
  end.

(** ** Scenarios

    The scenario of the design document and of [tests/test_server_logic.py]:
    capacity 4, "target" at the origin, "shooter" at (5,0,0), one
    projectile of "shooter" at (0.2,0,0) flying along -x, [dt = 0.01];
    here each session has a writer of its own. *)

Definition open_writer : StreamWriter := mkStreamWriter [] None false.

Definition session (w : nat) (name : string) (position : list float) (health : Z)
  : PlayerState.t :=
  PlayerState.mk w name position 0.0%float health 0.0%float.

Definition origin : list float := [0.0; 0.0; 0.0]%float.

Definition example_bullet : Bullet.t :=
  Bullet.mk "bullet" "shooter" [0.2; 0.0; 0.0]%float [-1.0; 0.0; 0.0]%float 1000.0%float.

Definition arena (players : list (string * PlayerState.t))
    (streams : gmap nat StreamWriter) : ShooterServer.t :=
  ShooterServer.mk "127.0.0.1" 0 "Test" 4 players [("bullet", example_bullet)] streams.

Definition three_writers : gmap nat StreamWriter :=
  <[0%nat := open_writer]> (<[1%nat := open_writer]> (<[2%nat := open_writer]> ∅)).

Definition example_server (target_health : Z) : ShooterServer.t :=
  arena [("target", session 0 "Target" origin target_health);
         ("shooter", session 1 "Shooter" [5.0; 0.0; 0.0]%float 100)]
        three_writers.

(** The owner stands where its projectile arrives. *)
Definition point_blank_server : ShooterServer.t :=
  arena [("shooter", session 1 "Shooter" origin 100);
         ("target", session 0 "Target" [5.0; 0.0; 0.0]%float 100)]
        three_writers.

(** "target" is at health 25 and its connection was reset. *)
Definition wounded_reset_server : ShooterServer.t :=
  arena [("target", session 0 "Target" origin 25);
         ("shooter", session 1 "Shooter" [5.0; 0.0; 0.0]%float 100)]
        (<[0%nat := mkStreamWriter [] (Some ConnectionResetError) false]> three_writers).


Definition example_dt : float := 0.01%float.

(** The clock half a second, and four seconds, after the shot. *)
Definition early_clock (k : nat) : float := 1000.5%float.
Definition late_clock (k : nat) : float := 1004.0%float.

(** Two sessions and no projectile. *)
Definition lobby (streams : gmap nat StreamWriter) : ShooterServer.t :=
  ShooterServer.mk "127.0.0.1" 0 "Test" 4
    [("target", session 0 "Target" origin 100);
     ("shooter", session 1 "Shooter" [5.0; 0.0; 0.0]%float 100)]
    [] streams.

(** The transport of "target" has reported a broken pipe. *)
Definition broken_pipe_server : ShooterServer.t :=
  lobby (<[0%nat := mkStreamWriter [] (Some BrokenPipeError) false]> three_writers).

(** The connection of "target" was reset. *)
Definition reset_server : ShooterServer.t :=
  lobby (<[0%nat := mkStreamWriter [] (Some ConnectionResetError) false]> three_writers).

(** The two sessions on a server of capacity 2. *)
Definition full_server : ShooterServer.t :=
  ShooterServer.mk "127.0.0.1" 0 "Test" 2
    [("target", session 0 "Target" origin 100);
     ("shooter", session 1 "Shooter" [5.0; 0.0; 0.0]%float 100)]
    [] three_writers.

(** Client messages. *)
Definition join_message (name : option string) : Message :=
  mkMessage (Some "join"%string) name None None None None None.

Definition state_message (position : option (list float)) (health : option Z) : Message :=
  mkMessage (Some "state"%string) None position None health None None.

(** Two clients connect to a server of capacity 1 and both ask to join. *)
Definition two_clients : list Event :=
  [Accept 0; Accept 1;
   Receive 0 (Data (Object (join_message (Some "Ann"%string))) "a1" 10.0%float);
   Receive 1 (Data (Object (join_message None)) "b2" 11.0%float)].

(** One client has connected and joined as "Ann" on a server of capacity 4. *)
Definition joined_once : System.t :=
  System.mk
    (ShooterServer.mk "0.0.0.0" 50000 "Python Server" 4
       [("a1"%string, PlayerState.mk 0 "Ann" respawn_point 0.0%float 100 10.0%float)]
       [] (<[0%nat := mkStreamWriter [WelcomeMsg "a1"] None false]> ∅))
    (<[0%nat := Some "a1"%string]> ∅) true.

(** A projectile with one coordinate of position next to the projectile
    of the scenario. *)
Definition short_bullet : Bullet.t :=
  Bullet.mk "short" "shooter" [1.0]%float [1.0; 0.0; 0.0]%float 1000.0%float.

Definition short_store_server : ShooterServer.t :=
  ShooterServer.mk "127.0.0.1" 0 "Test" 4
    [("target", session 0 "Target" origin 100);
     ("shooter", session 1 "Shooter" [5.0; 0.0; 0.0]%float 100)]
    [("bullet", example_bullet); ("short", short_bullet)] three_writers.

(** The projectile of the scenario, far from both sessions. *)
Definition stray_server : ShooterServer.t :=
  ShooterServer.mk "127.0.0.1" 0 "Test" 4
    [("target", session 0 "Target" [50.0; 0.0; 0.0]%float 100);
     ("shooter", session 1 "Shooter" [5.0; 0.0; 0.0]%float 100)]
    [("bullet", example_bullet)] three_writers.

(** ** Vocabulary of the properties *)

(** Bytes that [strip] removes, only. *)
Fixpoint blank (data : string) : bool :=
  match data with
  | String c rest => is_space c && blank rest
  | EmptyString => true
  end.

(** The probe between two runs of white space. *)
Definition padded_probe (data : string) : Prop :=
  ∃ a b, blank a = true ∧ blank b = true ∧ data = (a +:+ "DISCOVER" +:+ b)%string.

(** The registry holds no more sessions than the configured capacity. *)
Definition within_capacity (s : ShooterServer.t) : Prop :=
  Z.of_nat (length (ShooterServer.players s)) <= ShooterServer.max_players s.


(** A session that no live handler tracks. *)
Definition orphan (u : string) (sys : System.t) : Prop :=
  u ∈ (ShooterServer.players (System.server sys)).*1 ∧
  ∀ w, System.handlers sys !! w ≠ Some (Some u).

(** The session identifiers listed in a snapshot. *)
Definition snapshot_ids (message : payload) : list string :=
  match message with
  | WorldStateMsg players _ => pv_id <$> players
  | _ => []
  end.

(** The number of sessions among the recipients whose writer is [w]. *)
Definition sessions_on (w : nat) (recipients : list PlayerState.t) : nat :=
  length (filter (fun p => PlayerState.writer p = w) recipients).

(** [drain] returns or raises [ConnectionResetError]. *)
Definition open_or_reset (streams : gmap nat StreamWriter) (p : PlayerState.t) : Prop :=
  drain (PlayerState.writer p) streams = None ∨
  drain (PlayerState.writer p) streams = Some ConnectionResetError.


(** A projectile with its three coordinates. *)
Definition well_formed (bullet : Bullet.t) : Prop :=
  (3 <= length (Bullet.position bullet))%nat ∧ (3 <= length (Bullet.direction bullet))%nat.

(** The state [_update_bullets] has built when it reaches the [k]-th
    projectile of the store. *)
Definition reach (dt : float) (clock : nat -> float) (s : ShooterServer.t) (k : nat)
  : list (string * Bullet.t) * list (string * PlayerState.t)
    * gmap nat StreamWriter * list string * option exn :=
  each_bullet dt clock 0 (take k (ShooterServer.bullets s)) (ShooterServer.players s)
              (ShooterServer.streams s) [].





(** A line that is not JSON, and a join message. *)
Definition is_not_json (r : Read) : bool :=
  match r with
  | Data NotJson _ _ => true
  | _ => false
  end.

Definition is_join (r : Read) : bool :=
  match r with
  | Data (Object message) _ _ => bool_decide (msg_type message = Some "join"%string)
  | _ => false
  end.

(** A store in which every projectile carries its key as identifier, an
    owner identifier that is not empty, and at least one coordinate of
    position and of direction. *)
Definition store_sound (bs : list (string * Bullet.t)) : Prop :=
  Forall (fun entry =>
            Bullet.id entry.2 = entry.1 ∧
            Bullet.owner_id entry.2 ≠ EmptyString ∧
            Bullet.position entry.2 ≠ [] ∧
            Bullet.direction entry.2 ≠ []) bs.

(** A shoot message. *)
Definition shoot_message (origin direction : option (list float)) : Message :=
  mkMessage (Some "shoot"%string) None None None None origin direction.

(** Two states of one session that differ at most in health and position,
    and two states of one projectile that differ at most in position. *)
Definition same_identity (p p' : PlayerState.t) : Prop :=
  PlayerState.writer p' = PlayerState.writer p ∧
  PlayerState.name p' = PlayerState.name p ∧
  PlayerState.rotation_y p' = PlayerState.rotation_y p ∧
  PlayerState.last_update p' = PlayerState.last_update p.

Definition same_flight (b b' : Bullet.t) : Prop :=
  Bullet.id b' = Bullet.id b ∧
  Bullet.owner_id b' = Bullet.owner_id b ∧
  Bullet.direction b' = Bullet.direction b ∧
  Bullet.created_at b' = Bullet.created_at b ∧
  length (Bullet.position b') = length (Bullet.position b).

(** The writers of [streams'] hold what those of [streams] hold, followed
    by damage notifications only. *)
Definition only_damage_written (streams streams' : gmap nat StreamWriter) : Prop :=
  ∀ w, ∃ n, streams' !! w =
            buffered (replicate n (DamageMsg BULLET_DAMAGE)) <$> streams !! w.

(** The same key, with the same identity or the same flight. *)
Definition same_session (entry entry' : string * PlayerState.t) : Prop :=
  entry'.1 = entry.1 ∧ same_identity entry.2 entry'.2.

Definition same_projectile (entry entry' : string * Bullet.t) : Prop :=
  entry'.1 = entry.1 ∧ same_flight entry.2 entry'.2.

(** An event that delivers a state message with a [health] field. *)
Definition reports_health (ev : Event) : bool :=
  match ev with
  | Receive _ (Data (Object message) _ _) =>
      bool_decide (msg_type message = Some "state"%string) &&
      bool_decide (msg_health message ≠ None)
  | _ => false
  end.

(** A health the server itself produces: a multiple of the damage from 0
    to 100, and above 0 while [alive]. *)
Definition graded (alive : bool) (h : Z) : Prop :=
  0 <= h <= 100 ∧ h mod BULLET_DAMAGE = 0 ∧ (alive = true → 0 < h).

Definition steady (sys : System.t) : Prop :=
  Forall (fun entry => graded (System.ticking sys) (PlayerState.health entry.2))
         (ShooterServer.players (System.server sys)).

(** * Properties *)

(** ** Dictionaries *)

Section DictFacts.
Context {V : Type}.
Implicit Types (d : list (string * V)) (k : string).

Lemma dict_pop_keys k k' d : k' ∈ (dict_pop k d).*1 ↔ k' ∈ d.*1 ∧ k' ≠ k.
Proof.
  induction d as [|[k0 v] d IH]; simpl.
  - rewrite elem_of_nil. tauto.
  - destruct (decide (k0 = k)) as [->|Hne]; simpl.
    + rewrite IH, elem_of_cons. split; [tauto|]. intros [[->|H] Hk]; tauto.
    + rewrite !elem_of_cons, IH. split.
      * intros [->|[H Hk]]; tauto.
      * tauto.
Qed.

Lemma dict_pop_absent k d : k ∉ (dict_pop k d).*1.
Proof. rewrite dict_pop_keys. tauto. Qed.

Lemma dict_pop_length k d : (length (dict_pop k d) <= length d)%nat.
Proof.
  induction d as [|[k0 v] d IH]; simpl; [lia|].
  destruct (decide (k0 = k)); simpl; lia.
Qed.

Lemma dict_pop_get_ne k k' d : k' ≠ k → dict_get k' (dict_pop k d) = dict_get k' d.
Proof.
  intros Hne. induction d as [|[k0 v] d IH]; simpl; [done|].
  destruct (decide (k0 = k)) as [->|Hk]; simpl.
  - rewrite IH. destruct (decide (k = k')); [congruence|done].
  - rewrite IH. done.
Qed.

Lemma dict_get_Some_keys k d v : dict_get k d = Some v → k ∈ d.*1.
Proof.
  induction d as [|[k0 v0] d IH]; simpl; [done|].
  destruct (decide (k0 = k)) as [->|Hk]; intros H.
  - apply elem_of_cons. by left.
  - apply elem_of_cons. right. auto.
Qed.

Lemma dict_get_keys k d : k ∈ d.*1 → is_Some (dict_get k d).
Proof.
  induction d as [|[k0 v0] d IH]; simpl.
  - by intros ?%elem_of_nil.
  - destruct (decide (k0 = k)) as [->|Hk]; [eauto|].
    intros [?|?]%elem_of_cons; [congruence|auto].
Qed.

Lemma dict_get_None k d : k ∉ d.*1 → dict_get k d = None.
Proof.
  intros H. destruct (dict_get k d) eqn:E; [|done].
  apply dict_get_Some_keys in E. done.
Qed.

Lemma dict_set_get k v d : dict_get k (dict_set k v d) = Some v.
Proof.
  induction d as [|[k0 v0] d IH]; simpl.
  - by rewrite decide_True.
  - destruct (decide (k0 = k)) as [->|Hk]; simpl.
    + by rewrite decide_True.
    + by rewrite decide_False.
Qed.

Lemma dict_set_get_ne k k' v d : k' ≠ k → dict_get k' (dict_set k v d) = dict_get k' d.
Proof.
  intros Hne. induction d as [|[k0 v0] d IH]; simpl.
  - rewrite decide_False; [done|congruence].
  - destruct (decide (k0 = k)) as [->|Hk]; simpl.
    + rewrite !decide_False; [done|congruence|congruence].
    + by rewrite IH.
Qed.

Lemma dict_set_fresh k v d : k ∉ d.*1 → dict_set k v d = d ++ [(k, v)].
Proof.
  induction d as [|[k0 v0] d IH]; simpl; [done|].
  rewrite not_elem_of_cons. intros [Hk Hd].
  rewrite decide_False by congruence. by rewrite IH.
Qed.

Lemma dict_set_keys k k' v d : k' ∈ (dict_set k v d).*1 ↔ k' = k ∨ k' ∈ d.*1.
Proof.
  induction d as [|[k0 v0] d IH]; simpl.
  - rewrite list_elem_of_singleton, elem_of_nil. tauto.
  - destruct (decide (k0 = k)) as [->|Hk]; simpl.
    + rewrite !elem_of_cons. tauto.
    + rewrite !elem_of_cons, IH. tauto.
Qed.

Lemma dict_set_length k v d :
  (length (dict_set k v d) <= S (length d))%nat ∧
  (k ∈ d.*1 → length (dict_set k v d) = length d).
Proof.
  induction d as [|[k0 v0] d [IH1 IH2]]; simpl.
  - split; [lia|]. by intros ?%elem_of_nil.
  - destruct (decide (k0 = k)) as [->|Hk]; simpl; [split; [lia|done]|].
    split; [lia|]. intros [?|?]%elem_of_cons; [congruence|].
    f_equal. auto.
Qed.
End DictFacts.

(** ** Writers *)

Lemma drain_write w w' data (streams : gmap nat StreamWriter) :
  drain w' (write w data streams) = drain w' streams.
Proof.
  unfold drain, write. rewrite lookup_alter.
  destruct (decide (w = w')) as [->|Hne]; [|done].
  destruct (streams !! w') as [sw|]; done.
Qed.

Lemma write_lookup w data (streams : gmap nat StreamWriter) :
  write w data streams !! w = buffered [data] <$> streams !! w.
Proof. unfold write. rewrite lookup_alter. by rewrite decide_True. Qed.

Lemma write_lookup_ne w w' data (streams : gmap nat StreamWriter) :
  w ≠ w' → write w data streams !! w' = streams !! w'.
Proof. intros Hne. unfold write. rewrite lookup_alter. by rewrite decide_False. Qed.

(** ** Advancing a projectile *)

Lemma advance_axis_fields i dt b b' :
  advance_axis i dt b = Returned b' →
  Bullet.id b' = Bullet.id b ∧ Bullet.owner_id b' = Bullet.owner_id b ∧
  Bullet.direction b' = Bullet.direction b ∧ Bullet.created_at b' = Bullet.created_at b ∧
  length (Bullet.position b') = length (Bullet.position b).
Proof.
  unfold advance_axis.
  destruct (Bullet.position b !! i), (Bullet.direction b !! i); try done.
  intros [= <-]. simpl. by rewrite length_insert.
Qed.

Lemma advance_fields dt b b' r :
  advance dt b = (b', r) →
  Bullet.id b' = Bullet.id b ∧ Bullet.owner_id b' = Bullet.owner_id b ∧
  Bullet.direction b' = Bullet.direction b ∧ Bullet.created_at b' = Bullet.created_at b ∧
  length (Bullet.position b') = length (Bullet.position b).
Proof.
  unfold advance.
  destruct (advance_axis 0 dt b) as [b0|e0] eqn:E0; [|by intros [= <- <-]].
  apply advance_axis_fields in E0 as (? & ? & ? & ? & ?).
  destruct (advance_axis 1 dt b0) as [b1|e1] eqn:E1; [|by intros [= <- <-]].
  apply advance_axis_fields in E1 as (? & ? & ? & ? & ?).
  destruct (advance_axis 2 dt b1) as [b2|e2] eqn:E2.
  - apply advance_axis_fields in E2 as (? & ? & ? & ? & ?).
    intros [= <- <-]. repeat split; congruence.
  - intros [= <- <-]. repeat split; congruence.
Qed.




(** ** The scan of the sessions for one projectile *)



Lemma scan_players_owner b ps (streams : gmap nat StreamWriter) :
  dict_get (Bullet.owner_id b) (scan_players b ps streams).1.1 =
  dict_get (Bullet.owner_id b) ps.
Proof.
  induction ps as [|[q pl] ps IH]; simpl; [done|].
  destruct (decide (q = Bullet.owner_id b)) as [->|Hne].
  - destruct (scan_players b ps streams) as [[ps' st'] r]. simpl.
    by rewrite decide_True.
  - destruct (in_range b pl).
    + destruct (drain _ _); simpl; by rewrite decide_False.
    + destruct (scan_players b ps streams) as [[ps' st'] r]. simpl in *.
      by rewrite decide_False.
Qed.

(** ** One projectile *)

Lemma bullet_step_owner dt now b ps (streams : gmap nat StreamWriter) :
  dict_get (Bullet.owner_id b) (bullet_step dt now b ps streams).1.1.2 =
  dict_get (Bullet.owner_id b) ps.
Proof.
  unfold bullet_step. destruct (advance dt b) as [b' [e|]] eqn:Ea; [done|].
  destruct (expired now b'); [done|].
  apply advance_fields in Ea as (_ & Ho & _).
  pose proof (scan_players_owner b' ps streams) as H. rewrite Ho in H.
  destruct (scan_players b' ps streams) as [[ps' st'] r]. done.
Qed.

Lemma bullet_step_expired dt now b b' ps (streams : gmap nat StreamWriter) :
  advance dt b = (b', None) → expired now b' = true →
  bullet_step dt now b ps streams = (b', ps, streams, Returned true).
Proof. intros Ea Ex. unfold bullet_step. by rewrite Ea, Ex. Qed.

Lemma bullet_step_live dt now b b' ps (streams : gmap nat StreamWriter) :
  advance dt b = (b', None) → expired now b' = false →
  bullet_step dt now b ps streams =
  (b', (scan_players b' ps streams).1.1, (scan_players b' ps streams).1.2,
   (scan_players b' ps streams).2).
Proof.
  intros Ea Ex. unfold bullet_step. rewrite Ea, Ex.
  by destruct (scan_players b' ps streams) as [[ps' st'] r].
Qed.


(** ** The loop over the store *)

Lemma each_bullet_app dt clock k xs ys ps (streams : gmap nat StreamWriter) rm :
  each_bullet dt clock k (xs ++ ys) ps streams rm =
  match each_bullet dt clock k xs ps streams rm with
  | (xs', ps', st', rm', Some e) => (xs' ++ ys, ps', st', rm', Some e)
  | (xs', ps', st', rm', None) =>
      let '(ys', ps'', st'', rm'', r) :=
        each_bullet dt clock (k + length xs) ys ps' st' rm' in
      (xs' ++ ys', ps'', st'', rm'', r)
  end.
Proof.
  revert k ps streams rm. induction xs as [|[bid b] xs IH]; intros k ps streams rm; simpl.
  - rewrite Nat.add_0_r.
    by destruct (each_bullet dt clock k ys ps streams rm) as [[[[ys' ps'] st'] rm'] r].
  - destruct (bullet_step dt (clock k) b ps streams) as [[[b' ps1] st1] [gone|e]]; [|done].
    rewrite IH. replace (S k + length xs)%nat with (k + S (length xs))%nat by lia.
    destruct (each_bullet dt clock (S k) xs ps1 st1 _) as [[[[xs' ps'] st'] rm'] [e|]];
      [done|].
    by destruct (each_bullet dt clock _ ys ps' st' rm') as [[[[ys' ps''] st''] rm''] r].
Qed.

Lemma each_bullet_keeps dt clock k items ps (streams : gmap nat StreamWriter) rm
    bs' ps' st' rm' r :
  each_bullet dt clock k items ps streams rm = (bs', ps', st', rm', r) →
  ∃ more, rm' = rm ++ more.
Proof.
  revert k ps streams rm bs' ps' st' rm' r.
  induction items as [|[bid b] items IH]; intros k ps streams rm bs' ps' st' rm' r; simpl.
  - intros [= <- <- <- <- <-]. exists []. by rewrite app_nil_r.
  - destruct (bullet_step dt (clock k) b ps streams) as [[[b' ps1] st1] [gone|e]].
    + destruct (each_bullet dt clock (S k) items ps1 st1 _)
        as [[[[xs' ps2] st2] rm2] r2] eqn:E.
      intros [= <- <- <- <- <-]. apply IH in E as [more ->].
      destruct gone; [|eauto]. exists ([bid] ++ more). by rewrite app_assoc.
    + intros [= <- <- <- <- <-]. exists []. by rewrite app_nil_r.
Qed.

Lemma each_bullet_keys dt clock k items ps (streams : gmap nat StreamWriter) rm
    bs' ps' st' rm' r :
  each_bullet dt clock k items ps streams rm = (bs', ps', st', rm', r) →
  bs'.*1 = items.*1.
Proof.
  revert k ps streams rm bs' ps' st' rm' r.
  induction items as [|[bid b] items IH]; intros k ps streams rm bs' ps' st' rm' r; simpl.
  - by intros [= <- <- <- <- <-].
  - destruct (bullet_step dt (clock k) b ps streams) as [[[b' ps1] st1] [gone|e]].
    + destruct (each_bullet dt clock (S k) items ps1 st1 _)
        as [[[[xs' ps2] st2] rm2] r2] eqn:E.
      intros [= <- <- <- <- <-]. apply IH in E. simpl. by f_equal.
    + by intros [= <- <- <- <- <-].
Qed.

Lemma pop_all_keys rm (bs : list (string * Bullet.t)) k :
  k ∈ (pop_all rm bs).*1 ↔ k ∈ bs.*1 ∧ k ∉ rm.
Proof.
  unfold pop_all. revert bs. induction rm as [|x rm IH]; intros bs; simpl.
  - rewrite elem_of_nil. tauto.
  - rewrite IH, dict_pop_keys, not_elem_of_cons. tauto.
Qed.

Lemma reach_next dt clock s k bid b bs ps (streams : gmap nat StreamWriter) rm :
  ShooterServer.bullets s !! k = Some (bid, b) →
  reach dt clock s k = (bs, ps, streams, rm, None) →
  reach dt clock s (S k) =
  match bullet_step dt (clock k) b ps streams with
  | (b', ps', st', Raised e) => (bs ++ [(bid, b')], ps', st', rm, Some e)
  | (b', ps', st', Returned gone) =>
      (bs ++ [(bid, b')], ps', st', if gone then rm ++ [bid] else rm, None)
  end.
Proof.
  intros Hk Hr. unfold reach in *.
  rewrite (take_S_r _ _ _ Hk), each_bullet_app, Hr. simpl.
  rewrite length_take_le by (apply lookup_lt_Some in Hk; lia).
  by destruct (bullet_step dt (clock k) b ps streams) as [[[b' ps1] st1] [gone|e]].
Qed.

Lemma reach_removed dt clock s k bs ps (streams : gmap nat StreamWriter) rm bid s' :
  reach dt clock s k = (bs, ps, streams, rm, None) →
  bid ∈ rm →
  _update_bullets dt clock s = (s', None) →
  bid ∉ (ShooterServer.bullets s').*1.
Proof.
  intros Hr Hin. unfold _update_bullets, reach in *.
  rewrite <- (take_drop k (ShooterServer.bullets s)) at 1.
  rewrite each_bullet_app, Hr.
  destruct (each_bullet dt clock _ (drop k _) ps streams rm)
    as [[[[ys' ps''] st''] rm''] [e|]] eqn:E; [done|].
  apply each_bullet_keeps in E as [more ->].
  intros [= <-]. simpl. rewrite pop_all_keys, elem_of_app. tauto.
Qed.

Lemma each_bullet_owner dt clock k items ps (streams : gmap nat StreamWriter) rm pid :
  Forall (fun entry => Bullet.owner_id entry.2 = pid) items →
  dict_get pid (each_bullet dt clock k items ps streams rm).1.1.1.2 = dict_get pid ps.
Proof.
  intros Hall. revert k ps streams rm.
  induction Hall as [|[bid b] items Hb Hall IH]; intros k ps streams rm; simpl; [done|].
  simpl in Hb. pose proof (bullet_step_owner dt (clock k) b ps streams) as Ho.
  rewrite Hb in Ho.
  destruct (bullet_step dt (clock k) b ps streams) as [[[b' ps1] st1] [gone|e]];
    simpl in Ho; [|done].
  specialize (IH (S k) ps1 st1 (if gone then rm ++ [bid] else rm)).
  destruct (each_bullet dt clock (S k) items ps1 st1 _) as [[[[xs' ps2] st2] rm2] r2].
  simpl in *. congruence.
Qed.

(** ** The claims about the tick *)

(** C2. Handling a projectile leaves the session stored under its owner
    identifier as it was, whatever the positions, the clock and the
    other sessions are; a whole tick over a store of projectiles that one
    session owns leaves that session as it was, whether the tick ends
    normally or by an exception. *)
Theorem projectile_spares_owner dt :
  (∀ now b ps (streams : gmap nat StreamWriter),
     dict_get (Bullet.owner_id b) (bullet_step dt now b ps streams).1.1.2 =
     dict_get (Bullet.owner_id b) ps) ∧
  (∀ clock s pid,
     Forall (fun entry => Bullet.owner_id entry.2 = pid) (ShooterServer.bullets s) →
     dict_get pid (ShooterServer.players (_update_bullets dt clock s).1) =
     dict_get pid (ShooterServer.players s)).
Proof.
  split; [intros; apply bullet_step_owner|].
  intros clock s pid Hall. unfold _update_bullets.
  pose proof (each_bullet_owner dt clock 0 _ (ShooterServer.players s)
                (ShooterServer.streams s) [] pid Hall) as H.
  destruct (each_bullet dt clock 0 _ _ _ _) as [[[[bs ps] st] rm] [e|]]; done.
Qed.


Lemma projectile_spares_owner_witness :
  dict_get "shooter"
    (bullet_step example_dt (early_clock 0) example_bullet
       (ShooterServer.players point_blank_server) three_writers).1.1.2 =
  dict_get "shooter" (ShooterServer.players point_blank_server) ∧
  dict_get "shooter"
    (ShooterServer.players
       (_update_bullets example_dt early_clock point_blank_server).1) =
  dict_get "shooter" (ShooterServer.players point_blank_server).
Proof.
  split.
  - apply (proj1 (projectile_spares_owner example_dt) (early_clock 0) example_bullet
                 (ShooterServer.players point_blank_server) three_writers).
  - apply (proj2 (projectile_spares_owner example_dt) early_clock point_blank_server
                 "shooter"%string).
    constructor; [reflexivity|constructor].
Defined.

(** The projectile of "shooter" ends its advance within the player radius
    of "shooter" itself: nobody is hit and the projectile flies on. *)
Example point_blank_owner_is_spared :
  let b' := (advance example_dt example_bullet).1 in
  let s' := (_update_bullets example_dt early_clock point_blank_server).1 in
  in_range b' (session 1 "Shooter" origin 100) = true ∧
  ShooterServer.players s' = ShooterServer.players point_blank_server ∧
  ShooterServer.bullets s' = [("bullet"%string, b')] ∧
  written <$> ShooterServer.streams s' !! 1%nat = Some [].
Proof. vm_compute. repeat split; reflexivity. Qed.



(** The scenario as the design document tells it: with the sessions and
    the projectile above, one pass of [_update_bullets] takes "target" from
    100 to 75, empties the store, and writes one damage notification of 25
    to the writer of "target" and nothing to the writer of "shooter". *)
Example example_scenario :
  let s' := (_update_bullets example_dt early_clock (example_server 100)).1 in
  _update_bullets tick_interval early_clock (example_server 100) =
    (ShooterServer.set_bullets [] s', None) ∧
  (_update_bullets example_dt early_clock (example_server 100)).2 = None ∧
  PlayerState.health <$> dict_get "target" (ShooterServer.players s') = Some 75 ∧
  PlayerState.health <$> dict_get "shooter" (ShooterServer.players s') = Some 100 ∧
  ShooterServer.bullets s' = [] ∧
  written <$> ShooterServer.streams s' !! 0%nat = Some [DamageMsg 25] ∧
  written <$> ShooterServer.streams s' !! 1%nat = Some [].
Proof. vm_compute. repeat split; reflexivity. Qed.


(** ** A tick that completes *)













(** C7 (amended). The lifetime test of a projectile comes right after its
    advance and before any hit test. When the tick reaches a projectile
    that has exceeded its lifetime, the projectile goes to the removal list
    and no session is tested against it: sessions and writers are left as
    they were, also when the projectile overlaps a session that is not its
    owner, and the projectile is absent from the store after a tick that
    completes. A projectile that has not exceeded its lifetime is the only
    kind that is hit-tested. *)
Theorem expired_projectile_is_not_hit_tested dt clock s k bid b b' bs ps
    (streams : gmap nat StreamWriter) rm :
  ShooterServer.bullets s !! k = Some (bid, b) →
  reach dt clock s k = (bs, ps, streams, rm, None) →
  advance dt b = (b', None) →
  (expired (clock k) b' = true →
     reach dt clock s (S k) = (bs ++ [(bid, b')], ps, streams, rm ++ [bid], None) ∧
     ∀ s', _update_bullets dt clock s = (s', None) → bid ∉ (ShooterServer.bullets s').*1) ∧
  (expired (clock k) b' = false →
     bullet_step dt (clock k) b ps streams =
     (b', (scan_players b' ps streams).1.1, (scan_players b' ps streams).1.2,
      (scan_players b' ps streams).2)).
Proof.
  intros Hk Hr Ea. split.
  - intros Hex.
    assert (Hnext : reach dt clock s (S k) =
                    (bs ++ [(bid, b')], ps, streams, rm ++ [bid], None)).
    { rewrite (reach_next _ _ _ _ _ _ _ _ _ _ Hk Hr).
      by rewrite (bullet_step_expired dt (clock k) b b' ps streams Ea Hex). }
    split; [done|]. intros s' Hs'. eapply reach_removed; [exact Hnext| |exact Hs'].
    apply elem_of_app. right. by apply list_elem_of_singleton.
  - intros Hex. by apply bullet_step_live.
Qed.

Lemma expired_projectile_is_not_hit_tested_witness :
  let s := example_server 100 in
  let b' := (advance example_dt example_bullet).1 in
  (reach example_dt late_clock s 1 =
     ([("bullet", b')], ShooterServer.players s, three_writers, ["bullet"], None) ∧
   ∀ s', _update_bullets example_dt late_clock s = (s', None) →
         "bullet" ∉ (ShooterServer.bullets s').*1) ∧
  bullet_step example_dt (early_clock 0) example_bullet (ShooterServer.players s)
              three_writers =
  (b', (scan_players b' (ShooterServer.players s) three_writers).1.1,
   (scan_players b' (ShooterServer.players s) three_writers).1.2,
   (scan_players b' (ShooterServer.players s) three_writers).2).
Proof.
  intros s b'. split.
  - refine (proj1 (expired_projectile_is_not_hit_tested example_dt late_clock s 0 "bullet"
                     example_bullet b' [] (ShooterServer.players s) three_writers []
                     _ _ _) _).
    + reflexivity.
    + reflexivity.
    + vm_compute. reflexivity.
    + vm_compute. reflexivity.
  - refine (proj2 (expired_projectile_is_not_hit_tested example_dt early_clock s 0 "bullet"
                     example_bullet b' [] (ShooterServer.players s) three_writers []
                     _ _ _) _).
    + reflexivity.
    + reflexivity.
    + vm_compute. reflexivity.
    + vm_compute. reflexivity.
Defined.

(** Against C7 as stated: four seconds after the shot the projectile of
    the scenario has exceeded its lifetime and, advanced, lies within the
    player radius of "target", which is not its owner; the tick completes
    and removes the projectile, and "target" keeps its health of 100 and
    receives no damage notification. *)
Lemma expired_overlapping_projectile_deals_no_damage :
  let b' := (advance example_dt example_bullet).1 in
  let target := session 0 "Target" origin 100 in
  let s' := (_update_bullets example_dt late_clock (example_server 100)).1 in
  expired (late_clock 0) b' = true ∧
  in_range b' target = true ∧
  "target" ≠ Bullet.owner_id b' ∧
  (_update_bullets example_dt late_clock (example_server 100)).2 = None ∧
  dict_get "target" (ShooterServer.players s') = Some target ∧
  written <$> ShooterServer.streams s' !! 0%nat = Some [] ∧
  ShooterServer.bullets s' = [].
Proof. vm_compute. repeat split; try reflexivity. discriminate. Qed.

(** ** Broadcast *)

Lemma buffered_buffered xs ys sw : buffered ys (buffered xs sw) = buffered (xs ++ ys) sw.
Proof. unfold buffered. simpl. by rewrite app_assoc. Qed.

Lemma buffered_nil sw : buffered [] sw = sw.
Proof. destruct sw. unfold buffered. simpl. by rewrite app_nil_r. Qed.

Lemma write_buffered w w' data xs (streams : gmap nat StreamWriter) :
  buffered xs <$> write w data streams !! w' =
  buffered (if decide (w = w') then data :: xs else xs) <$> streams !! w'.
Proof.
  unfold write. rewrite lookup_alter. destruct (decide (w = w')) as [->|Hne]; [|done].
  destruct (streams !! w') as [sw|]; simpl; [|done]. by rewrite buffered_buffered.
Qed.




(** The snapshot of the tick in which "target", at health 25, is hit: the
    writer of "shooter" receives one snapshot, in which "target" has health
    100 and stands at the respawn point, and no projectile is left. *)
Example respawn_shows_in_snapshot :
  written <$> ShooterServer.streams
                (world_tick_turn example_dt early_clock (example_server 25)).1 !! 1%nat =
  Some [WorldStateMsg
          [mkPlayerView "target" "Target" respawn_point 0.0%float 100;
           mkPlayerView "shooter" "Shooter" [5.0; 0.0; 0.0]%float 0.0%float 100]
          []].
Proof. vm_compute. reflexivity. Qed.

Lemma send_each_reset message recipients (streams : gmap nat StreamWriter) :
  Forall (open_or_reset streams) recipients →
  (send_each message recipients streams).2 = None ∧
  ∀ w, (send_each message recipients streams).1 !! w =
       buffered (replicate (sessions_on w recipients) message) <$> streams !! w.
Proof.
  intros Hall. revert streams Hall.
  induction recipients as [|p recipients IH]; intros streams Hall; simpl.
  - split; [done|]. intros w. unfold sessions_on. simpl.
    destruct (streams !! w) as [sw|]; simpl; [|done]. by rewrite buffered_nil.
  - apply Forall_cons in Hall as [Hp Hall].
    set (st1 := write (PlayerState.writer p) message streams).
    assert (Hall1 : Forall (open_or_reset st1) recipients).
    { eapply Forall_impl; [exact Hall|]. intros q. unfold open_or_reset, st1.
      by rewrite drain_write. }
    destruct (IH st1 Hall1) as [IHr IHw].
    assert (Hgo : ∀ w, (send_each message recipients st1).1 !! w =
                       buffered (replicate (sessions_on w (p :: recipients)) message)
                         <$> streams !! w).
    { intros w. rewrite IHw. unfold st1. rewrite write_buffered.
      unfold sessions_on. rewrite filter_cons.
      destruct (decide (PlayerState.writer p = w)); done. }
    unfold open_or_reset in Hp. fold st1.
    replace (drain (PlayerState.writer p) st1) with (drain (PlayerState.writer p) streams)
      by (unfold st1; by rewrite drain_write).
    destruct Hp as [-> | ->]; done.
Qed.

(** C8 (amended). When every recipient's connection either accepts the
    write or answers [drain] with [ConnectionResetError], the broadcast
    returns without an exception and has written the same snapshot to the
    writer of every session, once per session on that writer, the
    recipients after a reset connection included; sessions and projectiles
    are as before. *)
Theorem broadcast_skips_reset_connections s :
  Forall (open_or_reset (ShooterServer.streams s)) (ShooterServer.players s).*2 →
  ∃ streams',
    _broadcast_state s = (ShooterServer.set_streams streams' s, None) ∧
    ∀ w, streams' !! w =
         buffered (replicate (sessions_on w (ShooterServer.players s).*2) (world_state s))
           <$> ShooterServer.streams s !! w.
Proof.
  intros Hall. unfold _broadcast_state.
  destruct (send_each_reset (world_state s) _ _ Hall) as [Hr Hw].
  destruct (send_each _ _ _) as [streams' r]. simpl in *. subst r. eauto.
Qed.

Lemma broadcast_skips_reset_connections_witness :
  ∃ streams',
    _broadcast_state reset_server = (ShooterServer.set_streams streams' reset_server, None) ∧
    ∀ w, streams' !! w =
         buffered (replicate (sessions_on w (ShooterServer.players reset_server).*2)
                             (world_state reset_server))
           <$> ShooterServer.streams reset_server !! w.
Proof.
  apply (broadcast_skips_reset_connections reset_server).
  unfold reset_server, lobby. simpl.
  constructor; [right; vm_compute; reflexivity|].
  constructor; [left; vm_compute; reflexivity|].
  constructor.
Defined.

(** With the connection of "target" reset, "shooter" still receives the
    snapshot. *)
Example reset_connection_is_skipped :
  (_broadcast_state reset_server).2 = None ∧
  written <$> ShooterServer.streams (_broadcast_state reset_server).1 !! 1%nat =
  Some [world_state reset_server].
Proof. vm_compute. split; reflexivity. Qed.

(** Against C8 as stated: the write to "target" fails with a broken pipe,
    which the handler of the broadcast does not catch; the exception leaves
    [_broadcast_state] and the turn of the tick loop, and "shooter", the
    next recipient, has received nothing. *)
Lemma broken_pipe_aborts_broadcast :
  drain 0 (ShooterServer.streams broken_pipe_server) = Some BrokenPipeError ∧
  (_broadcast_state broken_pipe_server).2 = Some BrokenPipeError ∧
  (world_tick_turn example_dt early_clock broken_pipe_server).2 = Some BrokenPipeError ∧
  written <$> ShooterServer.streams (_broadcast_state broken_pipe_server).1 !! 1%nat
  = Some [].
Proof. vm_compute. repeat split; reflexivity. Qed.

(** ** Discovery *)

Lemma append_cons c a b : (String c a +:+ b)%string = String c (a +:+ b)%string.
Proof. reflexivity. Qed.

Lemma append_empty b : (EmptyString +:+ b)%string = b.
Proof. reflexivity. Qed.

Lemma lstrip_split data : ∃ a, blank a = true ∧ data = (a +:+ lstrip data)%string.
Proof.
  induction data as [|c rest (a & Ha & IH)]; simpl.
  - by exists EmptyString.
  - destruct (is_space c) eqn:Ec.
    + exists (String c a). simpl. rewrite Ec, Ha, append_cons. split; [done|]. by f_equal.
    + by exists EmptyString.
Qed.

Lemma rstrip_blank b : blank b = true → rstrip b = EmptyString.
Proof.
  induction b as [|c rest IH]; simpl; [done|].
  intros [Hc Hr]%andb_prop. by rewrite (IH Hr), Hc.
Qed.

Lemma rstrip_split data : ∃ b, blank b = true ∧ data = (rstrip data +:+ b)%string.
Proof.
  induction data as [|c rest (b & Hb & IH)]; simpl.
  - by exists EmptyString.
  - destruct (rstrip rest) as [|c' kept] eqn:Er.
    + rewrite append_empty in IH. subst b. destruct (is_space c) eqn:Ec.
      * exists (String c rest). simpl. by rewrite Ec, Hb.
      * exists rest. by rewrite append_cons, append_empty.
    + exists b. split; [done|]. rewrite append_cons. by f_equal.
Qed.

Lemma lstrip_app_blank a data : blank a = true → lstrip (a +:+ data) = lstrip data.
Proof.
  induction a as [|c rest IH]; [done|].
  intros [Hc Hr]%andb_prop. rewrite append_cons. simpl. rewrite Hc. auto.
Qed.

Lemma rstrip_app_blank data b : blank b = true → rstrip (data +:+ b) = rstrip data.
Proof.
  intros Hb. induction data as [|c rest IH].
  - rewrite append_empty. by apply rstrip_blank.
  - rewrite append_cons. simpl. by rewrite IH.
Qed.

Lemma strip_probe data : strip data = "DISCOVER"%string ↔ padded_probe data.
Proof.
  unfold strip. split.
  - intros H. destruct (lstrip_split data) as (a & Ha & Hdata).
    destruct (rstrip_split (lstrip data)) as (b & Hb & Hl).
    exists a, b. rewrite H in Hl. by rewrite <- Hl.
  - intros (a & b & Ha & Hb & ->).
    rewrite (lstrip_app_blank a _ Ha).
    change (lstrip ("DISCOVER" +:+ b)) with ("DISCOVER" +:+ b)%string.
    by rewrite (rstrip_app_blank _ b Hb).
Qed.

(** C9 (amended). For every datagram the discovery loop sends exactly one
    reply, the response line of the server, to the sender when the first
    512 bytes of the datagram are the probe DISCOVER between two (possibly
    empty) runs of ASCII white space, and sends nothing otherwise. *)
Theorem discovery_replies_to_padded_probe {A : Type} s (datagram : string) (addr : A) :
  (padded_probe (substring 0 512 datagram) →
     discovery_turn s datagram addr = [(discovery_response s, addr)]) ∧
  (¬ padded_probe (substring 0 512 datagram) → discovery_turn s datagram addr = []).
Proof.
  unfold discovery_turn. split; intros H.
  - rewrite decide_True; [done|]. by apply strip_probe.
  - rewrite decide_False; [done|]. by rewrite strip_probe.
Qed.

(** The probe of [DiscoveryClient.scan], with its line feed, is answered;
    another word is not. *)
Lemma discovery_replies_to_padded_probe_witness :
  discovery_turn (lobby three_writers) ("DISCOVER" +:+ newline) 7%nat =
    [(discovery_response (lobby three_writers), 7%nat)] ∧
  discovery_turn (lobby three_writers) "HELLO" 7%nat = [].
Proof.
  split.
  - apply (proj1 (discovery_replies_to_padded_probe (lobby three_writers)
                    ("DISCOVER" +:+ newline) 7%nat)).
    exists EmptyString, newline. repeat split; reflexivity.
  - apply (proj2 (discovery_replies_to_padded_probe (lobby three_writers) "HELLO" 7%nat)).
    intros H. apply strip_probe in H. vm_compute in H. discriminate H.
Defined.

Example client_probe_is_padded : padded_probe (substring 0 512 ("DISCOVER" +:+ newline)).
Proof. exists EmptyString, newline. repeat split; reflexivity. Qed.

(** The response line for the server "Test" on port 0 with two of four
    sessions. *)
Example discovery_response_line :
  discovery_response (lobby three_writers) = ("SERVER Test 0 2 4" +:+ newline)%string.
Proof. vm_compute. reflexivity. Qed.

(** Against C9 as stated: a datagram that is neither DISCOVER nor DISCOVER
    with a line feed, here the word between blanks, is answered, and so is
    each of these two. *)
Lemma padded_datagram_is_answered :
  let s := lobby three_writers in
  let datagram := " DISCOVER  "%string in
  datagram ≠ "DISCOVER"%string ∧
  datagram ≠ ("DISCOVER" +:+ newline)%string ∧
  discovery_turn s datagram 7%nat = [(discovery_response s, 7%nat)] ∧
  discovery_turn s "DISCOVER" 7%nat = [(discovery_response s, 7%nat)] ∧
  discovery_turn s ("DISCOVER" +:+ newline) 7%nat = [(discovery_response s, 7%nat)].
Proof. repeat split; try discriminate; vm_compute; reflexivity. Qed.

(** ** What every operation keeps *)

Lemma scan_players_keys b ps (streams : gmap nat StreamWriter) :
  (scan_players b ps streams).1.1.*1 = ps.*1.
Proof.
  induction ps as [|[q pl] ps IH]; simpl; [done|].
  destruct (decide (q = Bullet.owner_id b)) as [->|Hne].
  - destruct (scan_players b ps streams) as [[ps' st'] r]. simpl in *. by f_equal.
  - destruct (in_range b pl).
    + by destruct (drain _ _).
    + destruct (scan_players b ps streams) as [[ps' st'] r]. simpl in *. by f_equal.
Qed.

Lemma bullet_step_keys dt now b ps (streams : gmap nat StreamWriter) :
  (bullet_step dt now b ps streams).1.1.2.*1 = ps.*1.
Proof.
  unfold bullet_step. destruct (advance dt b) as [b' [e|]]; [done|].
  destruct (expired now b'); [done|].
  pose proof (scan_players_keys b' ps streams).
  by destruct (scan_players b' ps streams) as [[ps' st'] r].
Qed.

Lemma each_bullet_players_keys dt clock k items ps (streams : gmap nat StreamWriter) rm :
  (each_bullet dt clock k items ps streams rm).1.1.1.2.*1 = ps.*1.
Proof.
  revert k ps streams rm.
  induction items as [|[bid b] items IH]; intros k ps streams rm; simpl; [done|].
  pose proof (bullet_step_keys dt (clock k) b ps streams) as Hs.
  destruct (bullet_step dt (clock k) b ps streams) as [[[b' ps1] st1] [gone|e]];
    simpl in Hs; [|done].
  specialize (IH (S k) ps1 st1 (if gone then rm ++ [bid] else rm)).
  destruct (each_bullet dt clock (S k) items ps1 st1 _) as [[[[xs' ps2] st2] rm2] r2].
  simpl in *. congruence.
Qed.

Lemma update_bullets_keeps dt clock s :
  (ShooterServer.players (_update_bullets dt clock s).1).*1 = (ShooterServer.players s).*1 ∧
  ShooterServer.max_players (_update_bullets dt clock s).1 = ShooterServer.max_players s.
Proof.
  unfold _update_bullets.
  pose proof (each_bullet_players_keys dt clock 0 (ShooterServer.bullets s)
                (ShooterServer.players s) (ShooterServer.streams s) []) as H.
  destruct (each_bullet dt clock 0 _ _ _ _) as [[[[bs ps] st] rm] [e|]]; done.
Qed.

Lemma broadcast_keeps s :
  ShooterServer.players (_broadcast_state s).1 = ShooterServer.players s ∧
  ShooterServer.bullets (_broadcast_state s).1 = ShooterServer.bullets s ∧
  ShooterServer.max_players (_broadcast_state s).1 = ShooterServer.max_players s.
Proof. unfold _broadcast_state. by destruct (send_each _ _ _). Qed.

Lemma world_tick_turn_keeps dt clock s :
  (ShooterServer.players (world_tick_turn dt clock s).1).*1 = (ShooterServer.players s).*1 ∧
  ShooterServer.max_players (world_tick_turn dt clock s).1 = ShooterServer.max_players s.
Proof.
  unfold world_tick_turn. destruct (update_bullets_keeps dt clock s) as [Hk Hm].
  destruct (_update_bullets dt clock s) as [s1 [e|]]; [done|]. simpl in *.
  destruct (broadcast_keeps s1) as (-> & _ & ->). done.
Qed.

Lemma keys_length {V : Type} (d d' : list (string * V)) :
  d.*1 = d'.*1 → length d = length d'.
Proof. intros H. by rewrite <- (length_fmap fst d), H, length_fmap. Qed.

(** ** The connection handler *)

Lemma dict_set_keys_same {V : Type} k (v : V) d : k ∈ d.*1 → (dict_set k v d).*1 = d.*1.
Proof.
  induction d as [|[k0 v0] d IH]; simpl.
  - by intros ?%elem_of_nil.
  - destruct (decide (k0 = k)) as [->|Hk]; simpl; [done|].
    intros [?|?]%elem_of_cons; [congruence|]. f_equal. auto.
Qed.

Lemma on_state_keeps now message pid s :
  (ShooterServer.players (on_state now message pid s)).*1 = (ShooterServer.players s).*1 ∧
  ShooterServer.max_players (on_state now message pid s) = ShooterServer.max_players s.
Proof.
  unfold on_state. destruct (dict_get pid (ShooterServer.players s)) as [state|] eqn:E;
    [|done].
  simpl. split; [|done]. apply dict_set_keys_same. by eapply dict_get_Some_keys.
Qed.

Lemma on_shoot_keeps uuid now message pid s :
  ShooterServer.players (on_shoot uuid now message pid s) = ShooterServer.players s ∧
  ShooterServer.max_players (on_shoot uuid now message pid s) = ShooterServer.max_players s.
Proof. unfold on_shoot. by destruct (_ && _). Qed.

Lemma on_join_full w uuid now message player_id s :
  ShooterServer.max_players s <= Z.of_nat (length (ShooterServer.players s)) →
  on_join w uuid now message player_id s =
  (ShooterServer.set_streams (write w (ErrorMsg "Server full") (ShooterServer.streams s)) s,
   player_id,
   raised_or (drain w (ShooterServer.streams s)) Break).
Proof.
  intros Hfull. unfold on_join. rewrite (proj2 (Z.leb_le _ _) Hfull).
  unfold _send_message. by rewrite drain_write.
Qed.

Lemma on_join_room w uuid now message player_id s :
  Z.of_nat (length (ShooterServer.players s)) < ShooterServer.max_players s →
  on_join w uuid now message player_id s =
  (ShooterServer.set_streams
     (write w (WelcomeMsg uuid) (ShooterServer.streams s))
     (ShooterServer.set_players
        (dict_set uuid
           (PlayerState.mk w (default "Player"%string (msg_name message)) respawn_point
                           0.0%float 100 now)
           (ShooterServer.players s)) s),
   Some uuid,
   raised_or (drain w (ShooterServer.streams s)) Continue).
Proof.
  intros Hroom. unfold on_join. rewrite (proj2 (Z.leb_gt _ _) Hroom).
  unfold _send_message. simpl. by rewrite drain_write.
Qed.

(** What a message does to the registry: either the keys stay and the
    handler keeps its identifier, or there was room and a session was
    stored under the identifier drawn. *)
Lemma on_message_registry w uuid now message player_id s :
  let '(s', pid', r) := on_message w uuid now message player_id s in
  ShooterServer.max_players s' = ShooterServer.max_players s ∧
  (((ShooterServer.players s').*1 = (ShooterServer.players s).*1 ∧ pid' = player_id) ∨
   (Z.of_nat (length (ShooterServer.players s)) < ShooterServer.max_players s ∧
    (∃ state, ShooterServer.players s' = dict_set uuid state (ShooterServer.players s)) ∧
    pid' = Some uuid)).
Proof.
  unfold on_message. destruct (decide (msg_type message = Some "join"%string)) as [Hj|Hj].
  - destruct (Z.le_gt_cases (ShooterServer.max_players s)
                (Z.of_nat (length (ShooterServer.players s)))) as [Hfull|Hroom].
    + rewrite on_join_full by done. simpl. auto.
    + rewrite on_join_room by done. simpl. split; [done|]. right. eauto.
  - destruct player_id as [pid|]; [|auto].
    destruct (_ && _).
    + destruct (on_state_keeps now message pid s) as [Hk Hm]. auto.
    + destruct (_ && _); [|auto].
      destruct (on_shoot_keeps uuid now message pid s) as [Hk Hm]. rewrite Hk. auto.
Qed.

Lemma handler_turn_registry w r player_id s :
  let '(s', pid', o) := handler_turn w r player_id s in
  ShooterServer.max_players s' = ShooterServer.max_players s ∧
  (((ShooterServer.players s').*1 = (ShooterServer.players s).*1 ∧ pid' = player_id) ∨
   (Z.of_nat (length (ShooterServer.players s)) < ShooterServer.max_players s ∧
    (∃ uuid state, drawn (Receive w r) = Some uuid ∧
       ShooterServer.players s' = dict_set uuid state (ShooterServer.players s) ∧
       pid' = Some uuid))).
Proof.
  destruct r as [|e|[| | |message] uuid now]; simpl; auto.
  pose proof (on_message_registry w uuid now message player_id s) as H.
  destruct (on_message w uuid now message player_id s) as [[s' pid'] o].
  destruct H as [Hm [H|(Hroom & [state Hs] & Hp)]]; [auto|].
  split; [done|]. right. split; [done|]. eauto.
Qed.

Lemma disconnect_registry w player_id s :
  ShooterServer.max_players (disconnect w player_id s) = ShooterServer.max_players s ∧
  (length (ShooterServer.players (disconnect w player_id s))
   <= length (ShooterServer.players s))%nat ∧
  ∀ u, player_id ≠ Some u →
       u ∈ (ShooterServer.players s).*1 →
       u ∈ (ShooterServer.players (disconnect w player_id s)).*1.
Proof.
  unfold disconnect. destruct player_id as [pid|]; [|done].
  destruct (_ && _); [|done]. simpl. split; [done|]. split; [apply dict_pop_length|].
  intros u Hu Hin. apply dict_pop_keys. split; [done|]. congruence.
Qed.

(** ** Runs of the server *)

Lemma step_capacity ev sys :
  within_capacity (System.server sys) → within_capacity (System.server (step ev sys)).
Proof.
  unfold within_capacity. intros Hcap. destruct ev as [w|w r|w e|clock]; simpl.
  - by destruct (ShooterServer.streams (System.server sys) !! w).
  - destruct (System.handlers sys !! w) as [player_id|]; [|done].
    pose proof (handler_turn_registry w r player_id (System.server sys)) as H.
    destruct (handler_turn w r player_id (System.server sys)) as [[s' pid'] o].
    assert (Hs' : Z.of_nat (length (ShooterServer.players s'))
                  <= ShooterServer.max_players s').
    { destruct H as [-> [[Hk _]|(Hroom & uuid & state & _ & -> & _)]].
      - by rewrite (keys_length _ _ Hk).
      - pose proof (dict_set_length uuid state (ShooterServer.players (System.server sys)))
          as [Hle _]. lia. }
    destruct (disconnect_registry w pid' s') as (Hm & Hlen & _).
    destruct o as [[]|]; cbn [System.server]; rewrite ?Hm; lia.
  - done.
  - destruct (System.ticking sys); [|done].
    destruct (world_tick_turn_keeps tick_interval clock (System.server sys)) as [Hk Hm].
    destruct (world_tick_turn tick_interval clock (System.server sys)) as [s' [e|]];
      simpl in *; by rewrite (keys_length _ _ Hk), Hm.
Qed.

Lemma run_capacity events sys :
  within_capacity (System.server sys) → within_capacity (System.server (run events sys)).
Proof.
  revert sys. induction events as [|ev events IH]; intros sys H; simpl; [done|].
  apply IH. by apply step_capacity.
Qed.

(** C5. A join message is refused exactly when the registry holds at
    least [max_players] sessions: then the error message is written, the
    registry and the identifier of the handler are as before, and the loop
    of the handler ends; the error message is what the writer receives if
    and only if the registry is that full. Otherwise a session with the respawn point as
    position and health 100 is stored under the identifier drawn, the
    handler tracks that identifier, and the welcome message carrying it is
    written to the client. Hence in every run of a server started with a
    capacity that is not negative the registry never holds more sessions
    than the capacity. *)
Theorem join_respects_capacity :
  (∀ w uuid now message player_id s,
     msg_type message = Some "join"%string →
     ShooterServer.max_players s <= Z.of_nat (length (ShooterServer.players s)) →
     ∃ r, on_message w uuid now message player_id s =
          (ShooterServer.set_streams
             (write w (ErrorMsg "Server full") (ShooterServer.streams s)) s,
           player_id, r) ∧
          r ≠ Returned Continue) ∧
  (∀ w uuid now message player_id s,
     msg_type message = Some "join"%string →
     Z.of_nat (length (ShooterServer.players s)) < ShooterServer.max_players s →
     let state := PlayerState.mk w (default "Player"%string (msg_name message))
                                 respawn_point 0.0%float 100 now in
     let registry := dict_set uuid state (ShooterServer.players s) in
     ∃ r, on_message w uuid now message player_id s =
          (ShooterServer.set_streams
             (write w (WelcomeMsg uuid) (ShooterServer.streams s))
             (ShooterServer.set_players registry s),
           Some uuid, r) ∧
          r ≠ Returned Break ∧
          dict_get uuid registry = Some state ∧
          (uuid ∉ (ShooterServer.players s).*1 →
           registry = ShooterServer.players s ++ [(uuid, state)])) ∧
  (∀ w uuid now message player_id s sw,
     msg_type message = Some "join"%string →
     ShooterServer.streams s !! w = Some sw →
     (written <$> ShooterServer.streams
                    (on_message w uuid now message player_id s).1.1 !! w =
        Some (written sw ++ [ErrorMsg "Server full"]) ↔
      ShooterServer.max_players s <= Z.of_nat (length (ShooterServer.players s)))) ∧
  (∀ host port name max_players events,
     0 <= max_players →
     within_capacity
       (System.server (run events (System.init host port name max_players)))).
Proof.
  split; [|split; [|split]].
  - intros w uuid now message player_id s Hj Hfull.
    unfold on_message. rewrite decide_True by done. rewrite on_join_full by done.
    eexists. split; [done|]. by destruct (drain w (ShooterServer.streams s)).
  - intros w uuid now message player_id s Hj Hroom state registry.
    unfold on_message. rewrite decide_True by done. rewrite on_join_room by done.
    eexists. split; [done|]. split; [by destruct (drain w (ShooterServer.streams s))|].
    split; [apply dict_set_get|apply dict_set_fresh].
  - intros w uuid now message player_id s sw Hj Hsw.
    unfold on_message. rewrite decide_True by done.
    destruct (Z.le_gt_cases (ShooterServer.max_players s)
                (Z.of_nat (length (ShooterServer.players s)))) as [Hfull|Hroom].
    + rewrite on_join_full by done. simpl. rewrite write_lookup, Hsw. done.
    + rewrite on_join_room by done. simpl. rewrite write_lookup, Hsw. simpl.
      split; [|lia]. intros [= H%app_inv_head]. discriminate H.
  - intros host port name max_players events Hmax. apply run_capacity.
    unfold within_capacity. simpl. lia.
Qed.

Lemma join_respects_capacity_witness :
  (∃ r, on_message 2 "c3" 12.0%float (join_message None) None full_server =
        (ShooterServer.set_streams
           (write 2 (ErrorMsg "Server full") (ShooterServer.streams full_server))
           full_server,
         None, r) ∧
        r ≠ Returned Continue) ∧
  (let state := PlayerState.mk 2 "Player" respawn_point 0.0%float 100 12.0%float in
   let s := lobby three_writers in
   let registry := dict_set "c3" state (ShooterServer.players s) in
   ∃ r, on_message 2 "c3" 12.0%float (join_message None) None s =
        (ShooterServer.set_streams
           (write 2 (WelcomeMsg "c3") (ShooterServer.streams s))
           (ShooterServer.set_players registry s),
         Some "c3"%string, r) ∧
        r ≠ Returned Break ∧
        dict_get "c3" registry = Some state ∧
        ("c3"%string ∉ (ShooterServer.players s).*1 →
         registry = ShooterServer.players s ++ [("c3"%string, state)])) ∧
  (written <$> ShooterServer.streams
                 (on_message 2 "c3" 12.0%float (join_message None) None full_server).1.1
                 !! 2%nat =
     Some (written open_writer ++ [ErrorMsg "Server full"]) ↔
   ShooterServer.max_players full_server
     <= Z.of_nat (length (ShooterServer.players full_server))) ∧
  within_capacity
    (System.server (run two_clients (System.init "0.0.0.0" 50000 "Python Server" 1))).
Proof.
  destruct join_respects_capacity as (Hfull & Hroom & Hiff & Hrun).
  split; [|split; [|split]].
  - apply (Hfull 2%nat "c3"%string 12.0%float (join_message None) None full_server).
    + reflexivity.
    + vm_compute. discriminate.
  - apply (Hroom 2%nat "c3"%string 12.0%float (join_message None) None
                 (lobby three_writers)).
    + reflexivity.
    + vm_compute. reflexivity.
  - apply (Hiff 2%nat "c3"%string 12.0%float (join_message None) None full_server
                open_writer); reflexivity.
  - apply (Hrun "0.0.0.0"%string 50000 "Python Server"%string 1 two_clients). lia.
Defined.

(** The two clients of [two_clients]: the first is welcomed, the second
    is told that the server is full and its handler ends; one session is
    registered. *)
Example second_client_is_refused :
  let sys := run two_clients (System.init "0.0.0.0" 50000 "Python Server" 1) in
  (ShooterServer.players (System.server sys)).*1 = ["a1"%string] ∧
  written <$> ShooterServer.streams (System.server sys) !! 0%nat
    = Some [WelcomeMsg "a1"] ∧
  written <$> ShooterServer.streams (System.server sys) !! 1%nat
    = Some [ErrorMsg "Server full"] ∧
  System.handlers sys !! 1%nat = None.
Proof. vm_compute. repeat split; reflexivity. Qed.

(** ** Sessions that no handler tracks *)

Lemma snapshot_ids_world_state s :
  snapshot_ids (world_state s) = (ShooterServer.players s).*1.
Proof.
  unfold world_state. simpl. rewrite <- list_fmap_compose.
  apply list_fmap_ext. by intros i [pid player] _.
Qed.

Lemma step_orphan ev sys u :
  orphan u sys → drawn ev ≠ Some u → orphan u (step ev sys).
Proof.
  intros [Hin Hfree] Hdraw. destruct ev as [w|w r|w e|clock]; simpl.
  - destruct (ShooterServer.streams (System.server sys) !! w); [done|].
    split; [done|]. intros w'. simpl.
    destruct (decide (w = w')) as [->|Hne].
    + by rewrite lookup_insert_eq.
    + by rewrite lookup_insert_ne.
  - destruct (System.handlers sys !! w) as [player_id|] eqn:Hw; [|done].
    pose proof (handler_turn_registry w r player_id (System.server sys)) as H.
    destruct (handler_turn w r player_id (System.server sys)) as [[s' pid'] o].
    assert (Hs' : u ∈ (ShooterServer.players s').*1 ∧ pid' ≠ Some u).
    { destruct H as [_ [[Hk ->]|(_ & uuid & state & Hd & -> & ->)]].
      - split; [by rewrite Hk|]. intros Hp. apply (Hfree w). by rewrite Hw, Hp.
      - split; [apply dict_set_keys; by right|]. congruence. }
    destruct Hs' as [Hin' Hpid'].
    assert (Hkeep : orphan u (System.mk s' (<[w := pid']> (System.handlers sys))
                                        (System.ticking sys))).
    { split; [done|]. intros w'. simpl. destruct (decide (w = w')) as [->|Hne].
      - rewrite lookup_insert_eq. congruence.
      - by rewrite lookup_insert_ne. }
    assert (Hend : orphan u (System.mk (disconnect w pid' s')
                                       (delete w (System.handlers sys))
                                       (System.ticking sys))).
    { split.
      - by apply (disconnect_registry w pid' s').
      - intros w'. simpl. destruct (decide (w = w')) as [->|Hne].
        + by rewrite lookup_delete_eq.
        + by rewrite lookup_delete_ne. }
    by destruct o as [[]|].
  - done.
  - destruct (System.ticking sys); [|done].
    destruct (world_tick_turn_keeps tick_interval clock (System.server sys)) as [Hk _].
    destruct (world_tick_turn tick_interval clock (System.server sys)) as [s' [e|]];
      cbn [fst] in Hk; (split; [cbn [System.server]; by rewrite Hk|done]).
Qed.

Lemma run_orphan events sys u :
  orphan u sys → Forall (fun ev => drawn ev ≠ Some u) events → orphan u (run events sys).
Proof.
  intros Ho Hall. revert sys Ho.
  induction Hall as [|ev events Hev Hall IH]; intros sys Ho; simpl; [done|].
  apply IH. by apply step_orphan.
Qed.

Lemma truthy_nonempty uuid : uuid ≠ EmptyString → truthy (Some uuid) = true.
Proof. by destruct uuid. Qed.

(** C10. A connection whose handler tracks a session sends another join
    while there is room and its writer accepts the welcome: a second
    session is stored, both are in the registry, and the handler tracks the
    new identifier. When the connection then ends, by end of stream or by
    an exception of the read, the handler removes the session it tracks
    last and no other: the earlier session stays in the registry, and in
    the registry and the snapshot of every later state of the run, as long
    as its identifier is not drawn again. *)
Theorem second_join_orphans_first_session sys w uuid1 uuid2 now message closing :
  System.handlers sys !! w = Some (Some uuid1) →
  (∀ w', System.handlers sys !! w' = Some (Some uuid1) → w' = w) →
  uuid1 ∈ (ShooterServer.players (System.server sys)).*1 →
  msg_type message = Some "join"%string →
  (Z.of_nat (length (ShooterServer.players (System.server sys)))
   < ShooterServer.max_players (System.server sys)) →
  drain w (ShooterServer.streams (System.server sys)) = None →
  uuid2 ≠ uuid1 →
  uuid2 ≠ EmptyString →
  closing = Eof ∨ (∃ e, closing = ReadRaises e) →
  let state := PlayerState.mk w (default "Player"%string (msg_name message))
                              respawn_point 0.0%float 100 now in
  let sys1 := step (Receive w (Data (Object message) uuid2 now)) sys in
  let sys2 := step (Receive w closing) sys1 in
  ShooterServer.players (System.server sys1) =
    dict_set uuid2 state (ShooterServer.players (System.server sys)) ∧
  uuid1 ∈ (ShooterServer.players (System.server sys1)).*1 ∧
  uuid2 ∈ (ShooterServer.players (System.server sys1)).*1 ∧
  System.handlers sys1 !! w = Some (Some uuid2) ∧
  ShooterServer.players (System.server sys2) =
    dict_pop uuid2 (ShooterServer.players (System.server sys1)) ∧
  System.handlers sys2 !! w = None ∧
  (uuid2 ∉ (ShooterServer.players (System.server sys2)).*1) ∧
  (∀ events,
     Forall (fun ev => drawn ev ≠ Some uuid1) events →
     uuid1 ∈ (ShooterServer.players (System.server (run events sys2))).*1 ∧
     uuid1 ∈ snapshot_ids (world_state (System.server (run events sys2)))).
Proof.
  intros Hw Honly Hin Hj Hroom Hdr Hne Htruthy Hclosing state sys1 sys2.
  assert (E1 : sys1 =
    System.mk
      (ShooterServer.set_streams
         (write w (WelcomeMsg uuid2) (ShooterServer.streams (System.server sys)))
         (ShooterServer.set_players
            (dict_set uuid2 state (ShooterServer.players (System.server sys)))
            (System.server sys)))
      (<[w := Some uuid2]> (System.handlers sys)) (System.ticking sys)).
  { unfold sys1. simpl. rewrite Hw. unfold on_message.
    rewrite decide_True by done. rewrite on_join_room by done. by rewrite Hdr. }
  assert (Hin2 : uuid2 ∈ (ShooterServer.players (System.server sys1)).*1).
  { rewrite E1. simpl. apply dict_set_keys. by left. }
  assert (E2 : sys2 =
    System.mk (disconnect w (Some uuid2) (System.server sys1))
              (delete w (System.handlers sys1)) (System.ticking sys1)).
  { unfold sys2. rewrite E1. simpl. rewrite lookup_insert_eq.
    by destruct Hclosing as [->|[e ->]]. }
  assert (P2 : ShooterServer.players (System.server sys2) =
               dict_pop uuid2 (ShooterServer.players (System.server sys1))).
  { rewrite E2. unfold disconnect. cbn [System.server].
    rewrite truthy_nonempty by done.
    unfold dict_in. by rewrite bool_decide_eq_true_2. }
  assert (Ho : orphan uuid1 sys2).
  { split.
    - rewrite P2. apply dict_pop_keys. split; [|done].
      rewrite E1. simpl. apply dict_set_keys. by right.
    - intros w'. rewrite E2, E1. simpl. destruct (decide (w = w')) as [->|Hww].
      + by rewrite lookup_delete_eq.
      + rewrite lookup_delete_ne, lookup_insert_ne by done.
        intros Hw'. apply Honly in Hw'. congruence. }
  split; [by rewrite E1|]. split; [rewrite E1; simpl; apply dict_set_keys; by right|].
  split; [done|]. split; [rewrite E1; simpl; by rewrite lookup_insert_eq|].
  split; [done|]. split; [rewrite E2; simpl; by rewrite lookup_delete_eq|].
  split; [rewrite P2; apply dict_pop_absent|].
  intros events Hall. destruct (run_orphan events sys2 uuid1 Ho Hall) as [Hrun _].
  split; [done|]. by rewrite snapshot_ids_world_state.
Qed.

Example joined_once_is_reached :
  run [Accept 0; Receive 0 (Data (Object (join_message (Some "Ann"%string))) "a1" 10.0%float)]
      (System.init "0.0.0.0" 50000 "Python Server" 4) = joined_once.
Proof. vm_compute. reflexivity. Qed.

Lemma second_join_orphans_first_session_witness :
  let state := PlayerState.mk 0 "Player" respawn_point 0.0%float 100 20.0%float in
  let sys1 := step (Receive 0 (Data (Object (join_message None)) "b2" 20.0%float))
                   joined_once in
  let sys2 := step (Receive 0 Eof) sys1 in
  ShooterServer.players (System.server sys1) =
    dict_set "b2" state (ShooterServer.players (System.server joined_once)) ∧
  "a1"%string ∈ (ShooterServer.players (System.server sys1)).*1 ∧
  "b2"%string ∈ (ShooterServer.players (System.server sys1)).*1 ∧
  System.handlers sys1 !! 0%nat = Some (Some "b2"%string) ∧
  ShooterServer.players (System.server sys2) =
    dict_pop "b2" (ShooterServer.players (System.server sys1)) ∧
  System.handlers sys2 !! 0%nat = None ∧
  ("b2"%string ∉ (ShooterServer.players (System.server sys2)).*1) ∧
  (∀ events,
     Forall (fun ev => drawn ev ≠ Some "a1"%string) events →
     "a1"%string ∈ (ShooterServer.players (System.server (run events sys2))).*1 ∧
     "a1"%string ∈ snapshot_ids (world_state (System.server (run events sys2)))).
Proof.
  refine (second_join_orphans_first_session joined_once 0 "a1" "b2" 20.0%float
            (join_message None) Eof _ _ _ _ _ _ _ _ _).
  - reflexivity.
  - intros w' H. unfold joined_once in H. simpl in H.
    destruct (decide (w' = 0%nat)) as [->|Hne]; [reflexivity|].
    rewrite lookup_insert_ne in H by done. rewrite lookup_empty in H. discriminate H.
  - vm_compute. apply list_elem_of_singleton. reflexivity.
  - reflexivity.
  - vm_compute. reflexivity.
  - vm_compute. reflexivity.
  - discriminate.
  - discriminate.
  - left. reflexivity.
Defined.

(** After the second join and the end of the stream the first session of
    the connection is the one left, and the next snapshot lists it. *)
Example first_session_is_left_behind :
  let sys2 :=
    run [Receive 0 (Data (Object (join_message None)) "b2" 20.0%float); Receive 0 Eof]
        joined_once in
  (ShooterServer.players (System.server sys2)).*1 = ["a1"%string] ∧
  System.handlers sys2 = ∅ ∧
  snapshot_ids (world_state (System.server (step (Tick early_clock) sys2)))
    = ["a1"%string].
Proof. vm_compute. repeat split; reflexivity. Qed.

(** ** The range of health *)
















(** ** The handler as one coroutine *)

(** The whole of [_handle_client] on a connection that joins twice and
    ends: the first session stays, the second is removed, the writer is
    closed. *)
Example handle_client_joins_twice :
  let input := [Data (Object (join_message (Some "Ann"%string))) "a1" 10.0%float;
                Data (Object (join_message None)) "b2" 20.0%float] in
  let s0 := ShooterServer.mk "0.0.0.0" 50000 "Python Server" 4 [] []
              (<[0%nat := open_writer]> ∅) in
  let s' := (_handle_client 0 input s0).1 in
  (_handle_client 0 input s0).2 = None ∧
  (ShooterServer.players s').*1 = ["a1"%string] ∧
  ShooterServer.streams s' !! 0%nat =
    Some (mkStreamWriter [WelcomeMsg "a1"; WelcomeMsg "b2"] None true).
Proof. vm_compute. repeat split; reflexivity. Qed.

(** ** When the damage notification cannot be written

    [_update_bullets] calls [_send_message] outside any [try]: the
    exception of a lost connection leaves the loop between the damage and
    the respawn test, nothing is removed from the store, and the tick task
    ends. The properties of the tick above are about ticks whose
    notifications are written. *)
Example failed_notification_ends_the_tick :
  let r := _update_bullets example_dt early_clock wounded_reset_server in
  r.2 = Some ConnectionResetError ∧
  dict_get "target" (ShooterServer.players r.1) = Some (session 0 "Target" origin 0) ∧
  (ShooterServer.bullets r.1).*1 = ["bullet"%string] ∧
  (world_tick_turn example_dt early_clock wounded_reset_server).2
    = Some ConnectionResetError ∧
  System.ticking (step (Tick early_clock) (System.mk wounded_reset_server ∅ true)) = false.
Proof. vm_compute. repeat split; reflexivity. Qed.

(** * Further properties *)

(** ** The reply of the discovery service, as the client reads it *)






















(** The server started without [--name] is called "Python Server": its
    reply has six fields and the client skips it. *)
Example default_name_is_not_listed :
  scan [(discovery_response (ShooterServer.init "0.0.0.0" 50000 "Python Server" 8),
         "10.0.0.7"%string)] = Some [].
Proof. vm_compute. reflexivity. Qed.

(** ** The handler of one connection *)

Lemma read_loop_skips_invalid_json w input player_id s :
  read_loop w (filter (fun r => is_not_json r = false) input) player_id s =
  read_loop w input player_id s.
Proof.
  revert player_id s. induction input as [|r input IH]; intros player_id s; [done|].
  destruct (is_not_json r) eqn:E.
  - rewrite filter_cons_False by (rewrite E; discriminate).
    destruct r as [|e|[| | |message] uuid now]; try discriminate E. simpl. apply IH.
  - rewrite filter_cons_True by done. simpl.
    destruct (handler_turn w r player_id s) as [[s' pid'] [[]|e]]; [apply IH|done|done].
Qed.

(** X2. Lines that are not JSON have no effect on a connection: the
    handler ends in the same state, with the same exception if any, as on
    the input without them. *)
Theorem invalid_json_is_ignored w input s :
  _handle_client w (filter (fun r => is_not_json r = false) input) s =
  _handle_client w input s.
Proof. unfold _handle_client. by rewrite read_loop_skips_invalid_json. Qed.

Lemma read_loop_unjoined w input s :
  Forall (fun r => is_join r = false) input →
  ∃ r, read_loop w input None s = (s, None, r).
Proof.
  induction 1 as [|r input Hr Hall [r' IH]]; simpl; [eauto|].
  destruct r as [|e|[| | |message] uuid now]; simpl; eauto.
  unfold on_message. simpl in Hr. apply bool_decide_eq_false_1 in Hr.
  rewrite decide_False by done. eauto.
Qed.

(** X3. A connection that never sends a join message changes neither the
    sessions nor the projectiles, whatever else it sends (state and shoot
    messages, invalid lines) and however it ends: all that is left of it is
    its closed writer, to which nothing was written. *)
Theorem connection_without_join_changes_nothing w input s :
  Forall (fun r => is_join r = false) input →
  (_handle_client w input s).1 =
  ShooterServer.set_streams (close w (ShooterServer.streams s)) s.
Proof.
  intros Hall. unfold _handle_client.
  destruct (read_loop_unjoined w input s Hall) as [r ->]. reflexivity.
Qed.

Lemma connection_without_join_changes_nothing_witness :
  let input :=
    [Data (Object (state_message (Some origin) (Some 1))) "u1" 1.0%float;
     Data NotJson "u2" 2.0%float;
     Data (Object (mkMessage (Some "shoot"%string) None None None None
                             (Some origin) (Some origin))) "u3" 3.0%float;
     ReadRaises BrokenPipeError] in
  (_handle_client 2 input (lobby three_writers)).1 =
  ShooterServer.set_streams (close 2 three_writers) (lobby three_writers).
Proof.
  intros input.
  apply (connection_without_join_changes_nothing 2 input (lobby three_writers)).
  repeat constructor.
Defined.

Lemma close_close w (streams : gmap nat StreamWriter) :
  close w (close w streams) = close w streams.
Proof.
  apply map_eq. intros i. unfold close. rewrite !lookup_alter.
  destruct (decide (w = i)) as [->|]; [|done].
  rewrite decide_True by done. by destruct (streams !! i).
Qed.

(** X4. The [finally] clause of the handler: the session the handler
    tracks is gone from the registry, every other session is as it was, in
    the same order, projectiles are untouched (those of the leaver fly
    on), the writer is closed and nothing is written to it, and running
    the clause again changes nothing. *)
Theorem disconnect_removes_own_session_only w player_id s :
  let s' := disconnect w player_id s in
  (∀ u, player_id = Some u → u ≠ EmptyString → u ∉ (ShooterServer.players s').*1) ∧
  (∀ u, player_id ≠ Some u →
        dict_get u (ShooterServer.players s') = dict_get u (ShooterServer.players s)) ∧
  (ShooterServer.players s' = ShooterServer.players s ∨
   ∃ u, player_id = Some u ∧
        ShooterServer.players s' = dict_pop u (ShooterServer.players s)) ∧
  ShooterServer.bullets s' = ShooterServer.bullets s ∧
  ShooterServer.streams s' = close w (ShooterServer.streams s) ∧
  disconnect w player_id s' = s'.
Proof.
  unfold disconnect. destruct player_id as [u|]; cbn zeta.
  - destruct (truthy (Some u)) eqn:Ht; simpl.
    + destruct (dict_in u (ShooterServer.players s)) eqn:Hin; simpl.
      * split; [intros ? [= <-] _; apply dict_pop_absent|].
        split; [intros v Hv; apply dict_pop_get_ne; congruence|].
        split; [right; eauto|]. split; [done|]. split; [done|].
        unfold dict_in. rewrite bool_decide_eq_false_2 by apply dict_pop_absent.
        simpl. by rewrite close_close.
      * apply bool_decide_eq_false_1 in Hin.
        split; [by intros ? [= <-] _|]. split; [done|]. split; [by left|].
        split; [done|]. split; [done|].
        unfold dict_in. rewrite bool_decide_eq_false_2 by done. simpl.
        by rewrite close_close.
    + split; [intros v [= <-] Hv; by rewrite truthy_nonempty in Ht|].
      split; [done|]. split; [by left|]. split; [done|]. split; [done|].
      by rewrite close_close.
  - simpl. split; [done|]. split; [done|]. split; [by left|].
    split; [done|]. split; [done|]. by rewrite close_close.
Qed.

Lemma disconnect_removes_own_session_only_witness :
  let s := lobby three_writers in
  let s' := disconnect 0 (Some "target"%string) s in
  ("target"%string ∉ (ShooterServer.players s').*1) ∧
  dict_get "shooter" (ShooterServer.players s') = dict_get "shooter" (ShooterServer.players s) ∧
  ShooterServer.bullets s' = ShooterServer.bullets s ∧
  ShooterServer.streams s' = close 0 (ShooterServer.streams s) ∧
  disconnect 0 (Some "target"%string) s' = s'.
Proof.
  intros s s'.
  destruct (disconnect_removes_own_session_only 0 (Some "target"%string) s)
    as (H1 & H2 & _ & H4 & H5 & H6).
  split; [apply (H1 "target"%string); [reflexivity|discriminate]|].
  split; [apply H2; discriminate|].
  split; [exact H4|]. split; [exact H5|exact H6].
Defined.

(** X5. A state message from a handler that tracks a session changes that
    session alone: the fields the message carries are stored, the others
    keep their values, [last_update] becomes the time of the message; every
    other session, the order of the registry, the projectiles and the
    writers are as before, and nothing is written. When the tracked
    identifier is not in the registry the message changes nothing. *)
Theorem state_message_touches_only_sender w uuid now message pid s :
  pid ≠ EmptyString →
  msg_type message = Some "state"%string →
  ∃ s',
    on_message w uuid now message (Some pid) s = (s', Some pid, Returned Continue) ∧
    (ShooterServer.players s').*1 = (ShooterServer.players s).*1 ∧
    (∀ other, other ≠ pid →
       dict_get other (ShooterServer.players s') =
       dict_get other (ShooterServer.players s)) ∧
    dict_get pid (ShooterServer.players s') =
      (fun state =>
         PlayerState.mk (PlayerState.writer state) (PlayerState.name state)
           (default (PlayerState.position state) (msg_position message))
           (default (PlayerState.rotation_y state) (msg_rotation_y message))
           (default (PlayerState.health state) (msg_health message))
           now) <$> dict_get pid (ShooterServer.players s) ∧
    ShooterServer.bullets s' = ShooterServer.bullets s ∧
    ShooterServer.streams s' = ShooterServer.streams s ∧
    ShooterServer.max_players s' = ShooterServer.max_players s.
Proof.
  intros Hpid Ht. unfold on_message.
  rewrite decide_False by (rewrite Ht; discriminate).
  rewrite bool_decide_eq_true_2 by done. rewrite truthy_nonempty by done. simpl.
  eexists. split; [done|]. split; [apply on_state_keeps|].
  unfold on_state.
  destruct (dict_get pid (ShooterServer.players s)) as [state|] eqn:E; simpl.
  - split; [intros other Ho; by apply dict_set_get_ne|].
    split; [by rewrite dict_set_get|done].
  - rewrite E. done.
Qed.

Lemma state_message_touches_only_sender_witness :
  ∃ s',
    on_message 0 "u" 30.0%float (state_message (Some [1.0; 2.0; 3.0]%float) None)
               (Some "target"%string) (lobby three_writers)
      = (s', Some "target"%string, Returned Continue) ∧
    (ShooterServer.players s').*1 = (ShooterServer.players (lobby three_writers)).*1 ∧
    (∀ other, other ≠ "target"%string →
       dict_get other (ShooterServer.players s') =
       dict_get other (ShooterServer.players (lobby three_writers))) ∧
    dict_get "target" (ShooterServer.players s') =
      Some (PlayerState.mk 0 "Target" [1.0; 2.0; 3.0]%float 0.0%float 100 30.0%float) ∧
    ShooterServer.bullets s' = ShooterServer.bullets (lobby three_writers) ∧
    ShooterServer.streams s' = ShooterServer.streams (lobby three_writers) ∧
    ShooterServer.max_players s' = ShooterServer.max_players (lobby three_writers).
Proof.
  apply (state_message_touches_only_sender 0 "u" 30.0%float
           (state_message (Some [1.0; 2.0; 3.0]%float) None) "target"
           (lobby three_writers)).
  - discriminate.
  - reflexivity.
Defined.

(** ** Projectiles the tick cannot advance *)

Lemma advance_axis_in_range i dt b b' :
  advance_axis i dt b = Returned b' →
  (i < length (Bullet.position b))%nat ∧ (i < length (Bullet.direction b))%nat.
Proof.
  unfold advance_axis.
  destruct (Bullet.position b !! i) eqn:Ep; [|done].
  destruct (Bullet.direction b !! i) eqn:Ed; [|done].
  intros _. split; by eapply lookup_lt_Some.
Qed.

Lemma advance_needs_three dt b b' : advance dt b = (b', None) → well_formed b.
Proof.
  unfold advance.
  destruct (advance_axis 0 dt b) as [b0|] eqn:E0; [|done].
  destruct (advance_axis 1 dt b0) as [b1|] eqn:E1; [|done].
  destruct (advance_axis 2 dt b1) as [b2|] eqn:E2; [|done].
  intros _.
  apply advance_axis_fields in E0 as (_ & _ & Hd0 & _ & Hp0).
  apply advance_axis_fields in E1 as (_ & _ & Hd1 & _ & Hp1).
  apply advance_axis_in_range in E2 as [Hp Hd].
  unfold well_formed. rewrite <- Hd0, <- Hd1, <- Hp0, <- Hp1. lia.
Qed.

Lemma each_bullet_ill_formed dt clock k items ps (streams : gmap nat StreamWriter) rm :
  Exists (fun entry => ¬ well_formed entry.2) items →
  (each_bullet dt clock k items ps streams rm).2 ≠ None.
Proof.
  intros Hex. revert k ps streams rm.
  induction Hex as [[bid b] items Hb|[bid b] items Hex IH]; intros k ps streams rm; simpl.
  - unfold bullet_step. destruct (advance dt b) as [b' [e|]] eqn:Ea; [done|].
    apply advance_needs_three in Ea. done.
  - destruct (bullet_step dt (clock k) b ps streams) as [[[b' ps1] st1] [gone|e]]; [|done].
    specialize (IH (S k) ps1 st1 (if gone then rm ++ [bid] else rm)).
    by destruct (each_bullet dt clock (S k) items ps1 st1 _) as [[[[xs' ps2] st2] rm2] r2].
Qed.

Lemma dict_get_elem {V : Type} k (v : V) d : dict_get k d = Some v → (k, v) ∈ d.
Proof.
  induction d as [|[k0 v0] d IH]; simpl; [done|].
  destruct (decide (k0 = k)) as [->|Hk].
  - intros [= ->]. apply elem_of_cons. by left.
  - intros H. apply elem_of_cons. right. auto.
Qed.

Lemma run_ticking_false events sys :
  System.ticking sys = false → System.ticking (run events sys) = false.
Proof.
  revert sys. induction events as [|ev events IH]; intros sys H; simpl; [done|].
  apply IH. destruct ev as [w|w r|w e|clock]; simpl.
  - by destruct (ShooterServer.streams (System.server sys) !! w).
  - destruct (System.handlers sys !! w) as [player_id|]; [|done].
    by destruct (handler_turn w r player_id (System.server sys)) as [[s' pid'] [[]|]].
  - done.
  - by rewrite H.
Qed.

(** X6. A projectile with fewer than three coordinates of position or of
    direction makes [_update_bullets] end with an exception and remove
    nothing from the store. A shoot message needs only a non-empty origin
    and direction to be accepted, so one such message from a joined client
    with a shorter list ends the tick task at the next tick, for the rest
    of the run. *)
Theorem short_projectile_ends_the_tick :
  (∀ dt clock s,
     Exists (fun entry => ¬ well_formed entry.2) (ShooterServer.bullets s) →
     (_update_bullets dt clock s).2 ≠ None ∧
     (ShooterServer.bullets (_update_bullets dt clock s).1).*1 =
       (ShooterServer.bullets s).*1) ∧
  (∀ sys w pid uuid now origin direction clock events,
     System.ticking sys = true →
     System.handlers sys !! w = Some (Some pid) →
     pid ≠ EmptyString →
     origin ≠ [] → direction ≠ [] →
     (length origin < 3)%nat ∨ (length direction < 3)%nat →
     let shot := Receive w (Data (Object (shoot_message (Some origin) (Some direction)))
                                 uuid now) in
     System.ticking (run events (step (Tick clock) (step shot sys))) = false).
Proof.
  split.
  - intros dt clock s Hex. unfold _update_bullets.
    pose proof (each_bullet_ill_formed dt clock 0 _ (ShooterServer.players s)
                  (ShooterServer.streams s) [] Hex) as Hr.
    destruct (each_bullet dt clock 0 _ _ _ _) as [[[[bs ps] st] rm] [e|]] eqn:E; [|done].
    simpl. split; [done|]. by eapply each_bullet_keys.
  - intros sys w pid uuid now origin direction clock events Ht Hw Hpid Ho Hd Hshort shot.
    apply run_ticking_false.
    set (b := Bullet.mk uuid pid origin direction now).
    assert (E1 : step shot sys =
      System.mk (ShooterServer.set_bullets
                   (dict_set uuid b (ShooterServer.bullets (System.server sys)))
                   (System.server sys))
                (<[w := Some pid]> (System.handlers sys)) (System.ticking sys)).
    { unfold shot. cbn [step]. rewrite Hw. cbn [handler_turn].
      unfold on_message, shoot_message. cbn [msg_type].
      rewrite decide_False by discriminate.
      rewrite bool_decide_eq_false_2 by discriminate.
      rewrite bool_decide_eq_true_2 by done. rewrite truthy_nonempty by done.
      cbn [andb]. unfold on_shoot. cbn [msg_origin msg_direction].
      by destruct origin, direction. }
    rewrite E1. simpl. rewrite Ht. unfold world_tick_turn.
    pose proof (each_bullet_ill_formed tick_interval clock 0
                  (dict_set uuid b (ShooterServer.bullets (System.server sys)))
                  (ShooterServer.players (System.server sys))
                  (ShooterServer.streams (System.server sys)) []) as Hr.
    unfold _update_bullets. simpl.
    destruct (each_bullet tick_interval clock 0 _ _ _ _) as [[[[bs ps] st] rm] [e|]];
      [done|].
    exfalso. apply Hr; [|done]. apply Exists_exists. exists (uuid, b).
    split; [apply dict_get_elem, dict_set_get|].
    unfold well_formed. simpl. lia.
Qed.

Lemma short_projectile_ends_the_tick_witness :
  ((_update_bullets example_dt early_clock short_store_server).2 ≠ None ∧
   (ShooterServer.bullets (_update_bullets example_dt early_clock short_store_server).1).*1
   = (ShooterServer.bullets short_store_server).*1) ∧
  System.ticking
    (run [Accept 5; Tick late_clock]
       (step (Tick early_clock)
          (step (Receive 0 (Data (Object (shoot_message (Some [1.0; 2.0]%float)
                                                        (Some [0.0; 1.0; 0.0]%float)))
                                 "s1" 30.0%float))
                joined_once))) = false.
Proof.
  split.
  - apply (proj1 short_projectile_ends_the_tick example_dt early_clock short_store_server).
    apply Exists_cons_tl, Exists_cons_hd. unfold well_formed. simpl. lia.
  - apply (proj2 short_projectile_ends_the_tick joined_once 0%nat "a1" "s1" 30.0%float
                 [1.0; 2.0]%float [0.0; 1.0; 0.0]%float early_clock
                 [Accept 5; Tick late_clock]).
    + reflexivity.
    + reflexivity.
    + discriminate.
    + discriminate.
    + discriminate.
    + left. simpl. lia.
Defined.

(** ** What a tick leaves alone *)

Lemma only_damage_written_refl (streams : gmap nat StreamWriter) :
  only_damage_written streams streams.
Proof.
  intros w. exists 0%nat. simpl. destruct (streams !! w); simpl; [|done].
  by rewrite buffered_nil.
Qed.

Lemma only_damage_written_trans (st1 st2 st3 : gmap nat StreamWriter) :
  only_damage_written st1 st2 → only_damage_written st2 st3 →
  only_damage_written st1 st3.
Proof.
  intros H12 H23 w. destruct (H12 w) as [n Hn]. destruct (H23 w) as [m Hm].
  exists (n + m)%nat. rewrite Hm, Hn. destruct (st1 !! w); simpl; [|done].
  by rewrite buffered_buffered, replicate_add.
Qed.

Lemma only_damage_written_write w (streams : gmap nat StreamWriter) :
  only_damage_written streams (write w (DamageMsg BULLET_DAMAGE) streams).
Proof.
  intros w'. destruct (decide (w = w')) as [<-|Hne].
  - exists 1%nat. apply write_lookup.
  - exists 0%nat. rewrite write_lookup_ne by done.
    destruct (streams !! w'); simpl; [|done]. by rewrite buffered_nil.
Qed.

Lemma same_identity_refl p : same_identity p p.
Proof. by repeat split. Qed.

Lemma same_session_trans e1 e2 e3 :
  same_session e1 e2 → same_session e2 e3 → same_session e1 e3.
Proof.
  intros [Hk (?&?&?&?)] [Hk' (?&?&?&?)]. split; [congruence|].
  repeat split; congruence.
Qed.

Lemma Forall2_same_session_refl ps : Forall2 same_session ps ps.
Proof. apply Forall2_same_length_lookup_2; [done|]. intros i x y H1 H2.
  rewrite H1 in H2. injection H2 as <-. split; [done|apply same_identity_refl]. Qed.

Lemma Forall2_same_session_trans ps1 ps2 ps3 :
  Forall2 same_session ps1 ps2 → Forall2 same_session ps2 ps3 →
  Forall2 same_session ps1 ps3.
Proof.
  intros H12. revert ps3. induction H12 as [|e1 e2 ps1 ps2 He H12 IH]; intros ps3 H23.
  - by inversion H23.
  - inversion H23 as [|? e3 ? ps3' He' H23']; subst. constructor.
    + by eapply same_session_trans.
    + by apply IH.
Qed.

Lemma scan_players_frame_sessions b ps (streams : gmap nat StreamWriter) :
  Forall2 same_session ps (scan_players b ps streams).1.1 ∧
  only_damage_written streams (scan_players b ps streams).1.2.
Proof.
  induction ps as [|[q pl] ps [IH1 IH2]]; simpl.
  - split; [constructor|apply only_damage_written_refl].
  - destruct (decide (q = Bullet.owner_id b)) as [->|Hne].
    + destruct (scan_players b ps streams) as [[ps' st'] r]. simpl in *.
      split; [|done]. constructor; [|done]. split; [done|apply same_identity_refl].
    + destruct (in_range b pl).
      * assert (Hd : same_session (q, pl) (q, damaged pl)) by (by repeat split).
        assert (Hr : same_session (q, pl) (q, respawned (damaged pl))).
        { split; [done|]. unfold respawned.
          destruct (PlayerState.health (damaged pl) <=? 0); by repeat split. }
        destruct (drain _ _); simpl;
          (split; [constructor; [done|apply Forall2_same_session_refl]
                  |apply only_damage_written_write]).
      * destruct (scan_players b ps streams) as [[ps' st'] r]. simpl in *.
        split; [|done]. constructor; [|done]. split; [done|apply same_identity_refl].
Qed.

Lemma advance_same_flight dt b : same_flight b (advance dt b).1.
Proof.
  destruct (advance dt b) as [b' r] eqn:E. by apply advance_fields in E.
Qed.

Lemma bullet_step_frame dt now b ps (streams : gmap nat StreamWriter) :
  same_flight b (bullet_step dt now b ps streams).1.1.1 ∧
  Forall2 same_session ps (bullet_step dt now b ps streams).1.1.2 ∧
  only_damage_written streams (bullet_step dt now b ps streams).1.2.
Proof.
  unfold bullet_step. pose proof (advance_same_flight dt b) as Hf.
  destruct (advance dt b) as [b' [e|]]; simpl in Hf.
  - split; [done|]. split; [apply Forall2_same_session_refl|apply only_damage_written_refl].
  - destruct (expired now b').
    + split; [done|].
      split; [apply Forall2_same_session_refl|apply only_damage_written_refl].
    + destruct (scan_players_frame_sessions b' ps streams) as [H1 H2].
      by destruct (scan_players b' ps streams) as [[ps' st'] r].
Qed.

Lemma each_bullet_frame dt clock k items ps (streams : gmap nat StreamWriter) rm :
  Forall2 same_projectile items (each_bullet dt clock k items ps streams rm).1.1.1.1 ∧
  Forall2 same_session ps (each_bullet dt clock k items ps streams rm).1.1.1.2 ∧
  only_damage_written streams (each_bullet dt clock k items ps streams rm).1.1.2.
Proof.
  revert k ps streams rm.
  induction items as [|[bid b] items IH]; intros k ps streams rm; simpl.
  - split; [constructor|].
    split; [apply Forall2_same_session_refl|apply only_damage_written_refl].
  - destruct (bullet_step_frame dt (clock k) b ps streams) as (Hb & Hp & Hs).
    destruct (bullet_step dt (clock k) b ps streams) as [[[b' ps1] st1] [gone|e]];
      simpl in *.
    + destruct (IH (S k) ps1 st1 (if gone then rm ++ [bid] else rm)) as (Ib & Ip & Is).
      destruct (each_bullet dt clock (S k) items ps1 st1 _)
        as [[[[xs' ps2] st2] rm2] r2]. simpl in *.
      split; [by constructor|].
      split; [by eapply Forall2_same_session_trans
             |by eapply only_damage_written_trans].
    + split; [|done]. constructor; [done|].
      apply Forall2_same_length_lookup_2; [done|]. intros i x y H1 H2.
      rewrite H1 in H2. injection H2 as <-. split; [done|]. by repeat split.
Qed.

Lemma dict_pop_subset {V : Type} k (d : list (string * V)) x : x ∈ dict_pop k d → x ∈ d.
Proof.
  induction d as [|[k0 v0] d IH]; simpl; [done|].
  destruct (decide (k0 = k)).
  - intros H. apply elem_of_cons. right. auto.
  - intros [->|H]%elem_of_cons; apply elem_of_cons; [by left|right; auto].
Qed.

Lemma pop_all_subset rm (bs : list (string * Bullet.t)) x : x ∈ pop_all rm bs → x ∈ bs.
Proof.
  unfold pop_all. revert bs. induction rm as [|k rm IH]; intros bs; simpl; [done|].
  intros H. apply IH in H. by eapply dict_pop_subset.
Qed.

(** X7. What [_update_bullets] never does, whether it returns or raises:
    it adds no session and removes none, keeps their order, and changes
    neither writer, name, rotation nor [last_update] of any; it adds no
    projectile, and a projectile left in the store has its identifier,
    owner, direction, creation time and number of coordinates as before;
    it writes nothing but damage notifications; it leaves the capacity
    alone. *)
Theorem tick_changes_health_and_position_only dt clock s :
  let s' := (_update_bullets dt clock s).1 in
  Forall2 same_session (ShooterServer.players s) (ShooterServer.players s') ∧
  (∀ bid b', (bid, b') ∈ ShooterServer.bullets s' →
             ∃ b, (bid, b) ∈ ShooterServer.bullets s ∧ same_flight b b') ∧
  only_damage_written (ShooterServer.streams s) (ShooterServer.streams s') ∧
  ShooterServer.max_players s' = ShooterServer.max_players s.
Proof.
  unfold _update_bullets.
  destruct (each_bullet_frame dt clock 0 (ShooterServer.bullets s)
              (ShooterServer.players s) (ShooterServer.streams s) []) as (Hb & Hp & Hs).
  destruct (each_bullet dt clock 0 _ _ _ _) as [[[[bs ps] st] rm] r]. simpl in *.
  assert (Hin : ∀ bid b', (bid, b') ∈ bs →
                  ∃ b, (bid, b) ∈ ShooterServer.bullets s ∧ same_flight b b').
  { intros bid b' [i Hi]%list_elem_of_lookup.
    destruct (Forall2_lookup_r _ _ _ _ _ Hb Hi) as ([bid0 b] & Hi0 & Hk & Hf).
    simpl in *. subst bid0. exists b. split; [|done].
    apply list_elem_of_lookup. eauto. }
  destruct r as [e|]; simpl; (split; [done|]); (split; [|done]).
  - done.
  - intros bid b' H. apply Hin. by eapply pop_all_subset.
Qed.

Lemma tick_changes_health_and_position_only_witness :
  let s' := (_update_bullets example_dt early_clock stray_server).1 in
  Forall2 same_session (ShooterServer.players stray_server) (ShooterServer.players s') ∧
  match ShooterServer.bullets s' with
  | (bid, b') :: _ => ∃ b, (bid, b) ∈ ShooterServer.bullets stray_server ∧ same_flight b b'
  | [] => False
  end.
Proof.
  intros s'.
  destruct (tick_changes_health_and_position_only example_dt early_clock stray_server)
    as (H1 & H2 & _).
  split; [exact H1|].
  fold s' in H2.
  destruct (ShooterServer.bullets s') as [|[bid b'] rest] eqn:E;
    [vm_compute in E; discriminate E|].
  apply H2. apply elem_of_cons. by left.
Defined.

(** ** A projectile that hits nothing *)







(** ** Invariants of the server in every run *)

Lemma broadcast_only_writes s :
  ∃ streams', (_broadcast_state s).1 = ShooterServer.set_streams streams' s.
Proof. unfold _broadcast_state. destruct (send_each _ _ _) as [st r]. eauto. Qed.

Section ServerInvariant.
Variable I : ShooterServer.t → Prop.
Hypothesis I_streams : ∀ s streams, I s → I (ShooterServer.set_streams streams s).
Hypothesis I_turn : ∀ w r player_id s, I s → I (handler_turn w r player_id s).1.1.
Hypothesis I_pop :
  ∀ s u, I s → I (ShooterServer.set_players (dict_pop u (ShooterServer.players s)) s).
Hypothesis I_tick : ∀ dt clock s, I s → I (_update_bullets dt clock s).1.

Lemma disconnect_invariant w player_id s : I s → I (disconnect w player_id s).
Proof.
  intros H. unfold disconnect. apply I_streams.
  destruct player_id as [u|]; [|done]. destruct (_ && _); [|done]. by apply I_pop.
Qed.

Lemma step_invariant ev sys : I (System.server sys) → I (System.server (step ev sys)).
Proof.
  intros H. destruct ev as [w|w r|w e|clock]; simpl.
  - destruct (ShooterServer.streams (System.server sys) !! w); [done|]. by apply I_streams.
  - destruct (System.handlers sys !! w) as [player_id|]; [|done].
    pose proof (I_turn w r player_id _ H) as Ht.
    destruct (handler_turn w r player_id (System.server sys)) as [[s' pid'] o].
    simpl in Ht. destruct o as [[]|]; simpl; [done|..]; by apply disconnect_invariant.
  - by apply I_streams.
  - destruct (System.ticking sys); [|done]. unfold world_tick_turn.
    pose proof (I_tick tick_interval clock _ H) as Ht.
    destruct (_update_bullets tick_interval clock (System.server sys)) as [s1 [e|]];
      simpl in *; [done|].
    destruct (broadcast_only_writes s1) as [st' Hb].
    destruct (_broadcast_state s1) as [s2 [e|]]; simpl in *; subst s2; by apply I_streams.
Qed.

Lemma run_invariant events sys : I (System.server sys) → I (System.server (run events sys)).
Proof.
  revert sys. induction events as [|ev events IH]; intros sys H; simpl; [done|].
  apply IH. by apply step_invariant.
Qed.
End ServerInvariant.

Lemma on_message_store w uuid now message player_id s :
  let s' := (on_message w uuid now message player_id s).1.1 in
  ShooterServer.bullets s' = ShooterServer.bullets s ∨
  ∃ u origin direction,
    u ≠ EmptyString ∧ origin ≠ [] ∧ direction ≠ [] ∧
    ShooterServer.bullets s' =
      dict_set uuid (Bullet.mk uuid u origin direction now) (ShooterServer.bullets s).
Proof.
  unfold on_message. destruct (decide (msg_type message = Some "join"%string)).
  - left. unfold on_join. by destruct (_ <=? _).
  - destruct player_id as [u|]; [|by left].
    destruct (bool_decide _ && truthy (Some u)).
    + left. simpl. unfold on_state.
      by destruct (dict_get u (ShooterServer.players s)).
    + destruct (truthy (Some u)) eqn:Ht; [|rewrite andb_false_r; by left].
      destruct (bool_decide _); [|by left]. simpl. unfold on_shoot.
      destruct (msg_origin message) as [[|o origin]|]; [by left| |by left].
      destruct (msg_direction message) as [[|d direction]|]; [by left| |by left].
      right. exists u, (o :: origin), (d :: direction). simpl.
      repeat split; try done. by destruct u.
Qed.

Lemma handler_turn_store w r player_id s :
  let s' := (handler_turn w r player_id s).1.1 in
  ShooterServer.bullets s' = ShooterServer.bullets s ∨
  ∃ uuid u origin direction now,
    u ≠ EmptyString ∧ origin ≠ [] ∧ direction ≠ [] ∧
    ShooterServer.bullets s' =
      dict_set uuid (Bullet.mk uuid u origin direction now) (ShooterServer.bullets s).
Proof.
  destruct r as [|e|[| | |message] uuid now]; simpl; auto.
  destruct (on_message_store w uuid now message player_id s) as [H|(u & o & d & H)];
    [by left|]. right. eauto 10.
Qed.

Lemma dict_set_Forall {V : Type} (P : string * V → Prop) k v d :
  P (k, v) → Forall P d → Forall P (dict_set k v d).
Proof.
  intros Hv. induction 1 as [|[k0 v0] d H0 Hd IH]; simpl.
  - constructor; [done|constructor].
  - destruct (decide (k0 = k)) as [->|]; constructor; auto.
Qed.

Lemma store_sound_tick dt clock s :
  store_sound (ShooterServer.bullets s) →
  store_sound (ShooterServer.bullets (_update_bullets dt clock s).1).
Proof.
  unfold store_sound. rewrite !Forall_forall. intros H [bid b'] Hin.
  unfold _update_bullets in Hin.
  destruct (each_bullet_frame dt clock 0 (ShooterServer.bullets s)
              (ShooterServer.players s) (ShooterServer.streams s) []) as (Hb & _ & _).
  destruct (each_bullet dt clock 0 _ _ _ _) as [[[[bs ps] st] rm] r]. simpl in *.
  assert (Hbs : (bid, b') ∈ bs).
  { destruct r; simpl in Hin; [done|]. by eapply pop_all_subset. }
  apply list_elem_of_lookup in Hbs as [i Hi].
  destruct (Forall2_lookup_r _ _ _ _ _ Hb Hi) as ([bid0 b] & Hi0 & Hk & Hf).
  simpl in *. subst bid0.
  destruct (H (bid, b)) as (H1 & H2 & H3 & H4); [apply list_elem_of_lookup; eauto|].
  destruct Hf as (F1 & F2 & F3 & F4 & F5). simpl in *.
  repeat split; try congruence.
  intros E. apply H3. apply nil_length_inv. rewrite <- F5, E. done.
Qed.

Lemma projectile_ids_are_keys (bs : list (string * Bullet.t)) :
  store_sound bs → (projectile_view <$> bs).*1 = bs.*1.
Proof.
  unfold store_sound. induction 1 as [|[bid b] bs (H & _) Hbs IH]; [done|].
  rewrite !fmap_cons. cbn [projectile_view fst snd] in *. by rewrite H, IH.
Qed.

(** X9. In every run of the server every stored projectile carries its key
    as identifier, an owner identifier that is not empty, and a position
    and a direction that are not empty lists; so the projectile identifiers
    a snapshot lists are the keys of the store, in order. *)
Theorem store_is_sound_in_every_run host port name max_players events :
  let s := System.server (run events (System.init host port name max_players)) in
  store_sound (ShooterServer.bullets s) ∧
  (match world_state s with
   | WorldStateMsg _ projectiles => projectiles.*1
   | _ => []
   end) = (ShooterServer.bullets s).*1.
Proof.
  assert (H : store_sound
                (ShooterServer.bullets
                   (System.server (run events (System.init host port name max_players))))).
  { apply (run_invariant (fun s => store_sound (ShooterServer.bullets s))).
    - done.
    - intros w r player_id s Hs.
      destruct (handler_turn_store w r player_id s)
        as [->|(uuid & u & o & d & now & Hu & Ho & Hd & ->)]; [done|].
      by apply dict_set_Forall.
    - done.
    - intros dt clock s. apply store_sound_tick.
    - constructor. }
  split; [done|]. simpl. by apply projectile_ids_are_keys.
Qed.

Lemma run_keeps_projectiles events sys bid :
  System.ticking sys = false →
  bid ∈ (ShooterServer.bullets (System.server sys)).*1 →
  bid ∈ (ShooterServer.bullets (System.server (run events sys))).*1.
Proof.
  revert sys. induction events as [|ev events IH]; intros sys Ht Hin; simpl; [done|].
  apply IH.
  - by apply (run_ticking_false [ev]).
  - destruct ev as [w|w r|w e|clock]; simpl.
    + by destruct (ShooterServer.streams (System.server sys) !! w).
    + destruct (System.handlers sys !! w) as [player_id|]; [|done].
      pose proof (handler_turn_store w r player_id (System.server sys)) as Hs.
      destruct (handler_turn w r player_id (System.server sys)) as [[s' pid'] o].
      simpl in Hs.
      assert (Hin' : bid ∈ (ShooterServer.bullets s').*1).
      { destruct Hs as [->|(uuid & u & o' & d & now & _ & _ & _ & ->)]; [done|].
        apply dict_set_keys. by right. }
      assert (Hd : ShooterServer.bullets (disconnect w pid' s') = ShooterServer.bullets s').
      { unfold disconnect. destruct pid'; [|done]. by destruct (_ && _). }
      destruct o as [[]|]; cbn [System.server]; by rewrite ?Hd.
    + done.
    + by rewrite Ht.
Qed.

(** X10. Projectiles leave the store in [_update_bullets] only. Once the
    tick task has ended with an exception it stays ended: whatever events
    follow, a tick event changes nothing and every projectile in the store
    stays in the store. *)
Theorem ended_tick_keeps_every_projectile sys events :
  System.ticking sys = false →
  System.ticking (run events sys) = false ∧
  (∀ clock, step (Tick clock) (run events sys) = run events sys) ∧
  (∀ bid, bid ∈ (ShooterServer.bullets (System.server sys)).*1 →
          bid ∈ (ShooterServer.bullets (System.server (run events sys))).*1).
Proof.
  intros Ht. pose proof (run_ticking_false events sys Ht) as Hrun.
  split; [done|]. split.
  - intros clock. simpl. by rewrite Hrun.
  - intros bid. by apply run_keeps_projectiles.
Qed.

Lemma ended_tick_keeps_every_projectile_witness :
  let sys := run [Tick early_clock; Accept 3] (System.mk (example_server 100) ∅ false) in
  System.ticking sys = false ∧
  step (Tick late_clock) sys = sys ∧
  "bullet"%string ∈ (ShooterServer.bullets (System.server sys)).*1.
Proof.
  intros sys.
  destruct (ended_tick_keeps_every_projectile
              (System.mk (example_server 100) ∅ false) [Tick early_clock; Accept 3] eq_refl)
    as (H1 & H2 & H3).
  split; [exact H1|]. split; [apply H2|].
  apply H3. simpl. apply elem_of_cons. by left.
Defined.

(** ** Health in runs without health reports *)

Lemma graded_weaken alive h : graded true h → graded alive h.
Proof. intros (H1 & H2 & H3). split; [done|]. split; [done|]. intros _. by apply H3. Qed.

Lemma graded_dead alive h : graded alive h → graded false h.
Proof. intros (H1 & H2 & H3). split; [done|]. split; [done|]. discriminate. Qed.

Lemma graded_full alive : graded alive 100.
Proof. unfold graded, BULLET_DAMAGE. split; [lia|]. split; [done|]. lia. Qed.

Lemma graded_hit p :
  graded true (PlayerState.health p) →
  graded false (PlayerState.health (damaged p)) ∧
  graded true (PlayerState.health (respawned (damaged p))).
Proof.
  unfold graded, respawned, damaged, BULLET_DAMAGE. simpl. intros (H1 & H2 & H3).
  specialize (H3 eq_refl).
  assert (Hm : (PlayerState.health p - 25) mod 25 = 0).
  { replace (PlayerState.health p - 25) with (PlayerState.health p + (-1) * 25) by lia.
    by rewrite Z.mod_add. }
  assert (Hge : 25 <= PlayerState.health p).
  { pose proof (Z.div_mod (PlayerState.health p) 25 ltac:(lia)) as Hd.
    rewrite H2 in Hd. lia. }
  split; [split; [lia|]; split; [done|discriminate]|].
  destruct (Z.leb_spec (PlayerState.health p - 25) 0); simpl.
  - split; [lia|]. split; [done|lia].
  - split; [lia|]. split; [done|lia].
Qed.

Lemma scan_players_graded b ps (streams : gmap nat StreamWriter) :
  Forall (fun entry => graded true (PlayerState.health entry.2)) ps →
  Forall (fun entry =>
            graded (match (scan_players b ps streams).2 with
                    | Returned _ => true
                    | Raised _ => false
                    end) (PlayerState.health entry.2))
         (scan_players b ps streams).1.1.
Proof.
  induction 1 as [|[q pl] ps Hq Hps IH]; simpl; [constructor|].
  destruct (decide (q = Bullet.owner_id b)) as [->|Hne].
  - destruct (scan_players b ps streams) as [[ps' st'] r]. simpl in *.
    constructor; [|done]. simpl. by apply graded_weaken.
  - destruct (in_range b pl).
    + destruct (graded_hit pl Hq) as [Hd Hr].
      destruct (drain _ _); simpl.
      * constructor; [done|]. eapply Forall_impl; [exact Hps|].
        intros entry. apply graded_dead.
      * constructor; [done|]. done.
    + destruct (scan_players b ps streams) as [[ps' st'] r]. simpl in *.
      constructor; [|done]. simpl. by apply graded_weaken.
Qed.

Lemma each_bullet_graded dt clock k items ps (streams : gmap nat StreamWriter) rm :
  Forall (fun entry => graded true (PlayerState.health entry.2)) ps →
  Forall (fun entry =>
            graded (match (each_bullet dt clock k items ps streams rm).2 with
                    | None => true
                    | Some _ => false
                    end) (PlayerState.health entry.2))
         (each_bullet dt clock k items ps streams rm).1.1.1.2.
Proof.
  revert k ps streams rm.
  induction items as [|[bid b] items IH]; intros k ps streams rm H; simpl; [done|].
  unfold bullet_step. destruct (advance dt b) as [b' [e|]]; simpl.
  { eapply Forall_impl; [exact H|]. intros entry. apply graded_dead. }
  destruct (expired (clock k) b').
  - specialize (IH (S k) ps streams (rm ++ [bid]) H).
    by destruct (each_bullet dt clock (S k) items ps streams _) as [[[[xs' ps2] st2] rm2] r2].
  - pose proof (scan_players_graded b' ps streams H) as Hs.
    destruct (scan_players b' ps streams) as [[ps1 st1] [gone|e]]; simpl in *; [|done].
    specialize (IH (S k) ps1 st1 (if gone then rm ++ [bid] else rm) Hs).
    by destruct (each_bullet dt clock (S k) items ps1 st1 _) as [[[[xs' ps2] st2] rm2] r2].
Qed.

Lemma world_tick_turn_graded dt clock s :
  Forall (fun entry => graded true (PlayerState.health entry.2)) (ShooterServer.players s) →
  Forall (fun entry =>
            graded (match (world_tick_turn dt clock s).2 with
                    | None => true
                    | Some _ => false
                    end) (PlayerState.health entry.2))
         (ShooterServer.players (world_tick_turn dt clock s).1).
Proof.
  intros H. unfold world_tick_turn, _update_bullets.
  pose proof (each_bullet_graded dt clock 0 (ShooterServer.bullets s)
                (ShooterServer.players s) (ShooterServer.streams s) [] H) as He.
  destruct (each_bullet dt clock 0 _ _ _ _) as [[[[bs ps] st] rm] [e|]]; simpl in *; [done|].
  match goal with |- context [_broadcast_state ?s1] =>
    destruct (broadcast_only_writes s1) as [st' Hb];
    destruct (_broadcast_state s1) as [s2 r] end.
  simpl in Hb. subst s2. simpl. destruct r; [|done].
  eapply Forall_impl; [exact He|]. intros entry. apply graded_dead.
Qed.

Lemma dict_pop_Forall {V : Type} (P : string * V → Prop) k d :
  Forall P d → Forall P (dict_pop k d).
Proof.
  rewrite !Forall_forall. intros H entry Hin. apply H. by eapply dict_pop_subset.
Qed.

Lemma handler_turn_graded alive w r player_id s :
  match r with
  | Data (Object message) _ _ =>
      bool_decide (msg_type message = Some "state"%string) &&
      bool_decide (msg_health message ≠ None) = false
  | _ => True
  end →
  Forall (fun entry => graded alive (PlayerState.health entry.2)) (ShooterServer.players s) →
  Forall (fun entry => graded alive (PlayerState.health entry.2))
         (ShooterServer.players (handler_turn w r player_id s).1.1).
Proof.
  intros Hr H. destruct r as [|e|[| | |message] uuid now]; simpl; try done.
  unfold on_message. destruct (decide (msg_type message = Some "join"%string)) as [Hj|Hj].
  - unfold on_join. destruct (_ <=? _); simpl; [done|].
    apply dict_set_Forall; [apply graded_full|done].
  - destruct player_id as [pid|]; [|done].
    destruct (bool_decide (msg_type message = Some "state"%string)) eqn:Es.
    + simpl in Hr. apply bool_decide_eq_false_1 in Hr.
      assert (Hm : msg_health message = None).
      { destruct (msg_health message); [|done]. exfalso. by apply Hr. }
      destruct (truthy (Some pid)); simpl.
      * unfold on_state.
        destruct (dict_get pid (ShooterServer.players s)) as [state|] eqn:E; [|done].
        simpl. apply dict_set_Forall; [|done]. simpl. rewrite Hm. simpl.
        apply dict_get_elem in E. rewrite Forall_forall in H. by apply (H _ E).
      * destruct (bool_decide _ && false); simpl; [|exact H].
        by rewrite (proj1 (on_shoot_keeps uuid now message pid s)).
    + clear Hr. simpl. destruct (_ && _); simpl; [|exact H].
      by rewrite (proj1 (on_shoot_keeps uuid now message pid s)).
Qed.

Lemma disconnect_graded alive w player_id s :
  Forall (fun entry => graded alive (PlayerState.health entry.2)) (ShooterServer.players s) →
  Forall (fun entry => graded alive (PlayerState.health entry.2))
         (ShooterServer.players (disconnect w player_id s)).
Proof.
  intros H. unfold disconnect. destruct player_id as [pid|]; [|done].
  destruct (_ && _); [|done]. simpl. by apply dict_pop_Forall.
Qed.

Lemma step_steady ev sys : reports_health ev = false → steady sys → steady (step ev sys).
Proof.
  unfold steady. intros Hev H. destruct ev as [w|w r|w e|clock]; cbn [step].
  - by destruct (ShooterServer.streams (System.server sys) !! w).
  - destruct (System.handlers sys !! w) as [player_id|]; [|done].
    assert (Hr : match r with
                 | Data (Object message) _ _ =>
                     bool_decide (msg_type message = Some "state"%string) &&
                     bool_decide (msg_health message ≠ None) = false
                 | _ => True
                 end).
    { destruct r as [|e|[| | |message] uuid now]; done. }
    pose proof (handler_turn_graded _ w r player_id _ Hr H) as Ht.
    destruct (handler_turn w r player_id (System.server sys)) as [[s' pid'] o].
    simpl in Ht.
    destruct o as [[]|]; cbn [System.server System.ticking]; [exact Ht|..];
      by apply disconnect_graded.
  - exact H.
  - destruct (System.ticking sys) eqn:Et; [|by rewrite Et].
    pose proof (world_tick_turn_graded tick_interval clock _ H) as Ht.
    destruct (world_tick_turn tick_interval clock (System.server sys)) as [s' [e|]];
      exact Ht.
Qed.

Lemma run_steady events sys :
  Forall (fun ev => reports_health ev = false) events → steady sys → steady (run events sys).
Proof.
  intros Hall. revert sys.
  induction Hall as [|ev events Hev Hall IH]; intros sys H; simpl; [done|].
  apply IH. by apply step_steady.
Qed.

(** X11. In a run in which no client reports a health of its own (no state
    message carries a [health] field), every session's health is a multiple
    of the damage from 0 to 100, and above 0 as long as the tick task
    runs: a session stands at health 0 only after a damage notification
    has failed and ended the tick task. *)
Theorem health_moves_by_damage_only host port name max_players events :
  Forall (fun ev => reports_health ev = false) events →
  let sys := run events (System.init host port name max_players) in
  ∀ pid p,
    (pid, p) ∈ ShooterServer.players (System.server sys) →
    0 <= PlayerState.health p <= 100 ∧
    PlayerState.health p mod BULLET_DAMAGE = 0 ∧
    (System.ticking sys = true → 0 < PlayerState.health p).
Proof.
  intros Hall sys pid p Hin.
  assert (H : steady sys).
  { apply run_steady; [done|]. constructor. }
  unfold steady in H. rewrite Forall_forall in H. apply (H _ Hin).
Qed.

Lemma health_moves_by_damage_only_witness :
  let sys := run two_clients (System.init "0.0.0.0" 50000 "Arena" 1) in
  match ShooterServer.players (System.server sys) with
  | (pid, p) :: _ =>
      0 <= PlayerState.health p <= 100 ∧
      PlayerState.health p mod BULLET_DAMAGE = 0 ∧
      0 < PlayerState.health p
  | [] => False
  end.
Proof.
  intros sys.
  assert (Hall : Forall (fun ev => reports_health ev = false) two_clients)
    by repeat constructor.
  pose proof (health_moves_by_damage_only "0.0.0.0" 50000 "Arena" 1 two_clients Hall) as H.
  cbv zeta in H. fold sys in H.
  destruct (ShooterServer.players (System.server sys)) as [|[pid p] rest] eqn:E;
    [vm_compute in E; discriminate E|].
  destruct (H pid p) as (H1 & H2 & H3); [apply elem_of_cons; by left|].
  split; [exact H1|]. split; [exact H2|]. apply H3. reflexivity.
Defined.

(** ** A connection that joins once *)

Lemma dict_get_last {V : Type} k (v : V) d :
  k ∉ d.*1 → dict_get k (d ++ [(k, v)]) = Some v.
Proof.
  induction d as [|[k0 v0] d IH]; simpl.
  - intros _. by rewrite decide_True.
  - rewrite not_elem_of_cons. intros [Hk Hd]. rewrite decide_False by congruence. auto.
Qed.

Lemma dict_set_last {V : Type} k (v v' : V) d :
  k ∉ d.*1 → dict_set k v' (d ++ [(k, v)]) = d ++ [(k, v')].
Proof.
  induction d as [|[k0 v0] d IH]; simpl.
  - intros _. by rewrite decide_True.
  - rewrite not_elem_of_cons. intros [Hk Hd]. rewrite decide_False by congruence.
    by rewrite IH.
Qed.

Lemma dict_pop_last {V : Type} k (v : V) d :
  k ∉ d.*1 → dict_pop k (d ++ [(k, v)]) = d.
Proof.
  induction d as [|[k0 v0] d IH]; simpl.
  - intros _. by rewrite decide_True.
  - rewrite not_elem_of_cons. intros [Hk Hd]. rewrite decide_False by congruence.
    by rewrite IH.
Qed.

Lemma read_loop_unjoined_app w pre rest s :
  Forall (fun r => is_join r = false) pre →
  read_loop w (pre ++ rest) None s = read_loop w rest None s ∨
  ∃ r, read_loop w (pre ++ rest) None s = (s, None, r).
Proof.
  induction 1 as [|r pre Hr Hall IH]; simpl; [by left|].
  destruct r as [|e|[| | |message] uuid now]; simpl; eauto.
  unfold on_message. simpl in Hr. apply bool_decide_eq_false_1 in Hr.
  rewrite decide_False by done. exact IH.
Qed.

Lemma read_loop_joined w post uuid ps state s :
  Forall (fun r => is_join r = false) post →
  uuid ∉ ps.*1 →
  ShooterServer.players s = ps ++ [(uuid, state)] →
  ∃ s' state' r,
    read_loop w post (Some uuid) s = (s', Some uuid, r) ∧
    ShooterServer.players s' = ps ++ [(uuid, state')] ∧
    ShooterServer.max_players s' = ShooterServer.max_players s.
Proof.
  intros Hall Hfresh. revert s state.
  induction Hall as [|r post Hr Hall IH]; intros s state Hs; simpl; [eauto 10|].
  destruct r as [|e|[| | |message] uuid' now]; simpl; eauto 10.
  unfold on_message. simpl in Hr. apply bool_decide_eq_false_1 in Hr.
  rewrite decide_False by done.
  destruct (bool_decide (msg_type message = Some "state"%string) && truthy (Some uuid)).
  - assert (Hst : ∃ state', ShooterServer.players (on_state now message uuid s) =
                             ps ++ [(uuid, state')]).
    { unfold on_state. rewrite Hs, dict_get_last by done. simpl.
      rewrite dict_set_last by done. eauto. }
    destruct Hst as [state' Hst].
    destruct (IH _ _ Hst) as (s' & state'' & r & Hl & Hp & Hm).
    exists s', state'', r. split; [done|]. split; [done|].
    rewrite Hm. apply on_state_keeps.
  - destruct (bool_decide (msg_type message = Some "shoot"%string) && truthy (Some uuid)).
    + destruct (on_shoot_keeps uuid' now message uuid s) as [Hk Hm].
      assert (Hst : ShooterServer.players (on_shoot uuid' now message uuid s) =
                    ps ++ [(uuid, state)]) by congruence.
      destruct (IH _ _ Hst) as (s' & state'' & r & Hl & Hp & Hm').
      exists s', state'', r. split; [done|]. split; [done|]. congruence.
    + by apply (IH s state).
Qed.

Lemma disconnect_last w uuid ps state s :
  uuid ≠ EmptyString → uuid ∉ ps.*1 →
  ShooterServer.players s = ps ++ [(uuid, state)] →
  ShooterServer.players (disconnect w (Some uuid) s) = ps.
Proof.
  intros Hne Hfresh Hs. unfold disconnect. rewrite truthy_nonempty by done.
  unfold dict_in. rewrite bool_decide_eq_true_2.
  - simpl. rewrite Hs. by apply dict_pop_last.
  - rewrite Hs, fmap_app. apply elem_of_app. right. simpl. apply elem_of_cons. by left.
Qed.

(** X12. A connection that joins once, under an identifier that is not
    empty and not in use, leaves the registry as it found it: whatever
    else it sends, whether the server was full or not, whether the welcome
    could be written or not, and however the connection ends, the sessions
    after the handler are the sessions before it, in the same order and
    with the same fields. *)
Theorem joined_connection_leaves_registry_as_found w pre message uuid now post s :
  Forall (fun r => is_join r = false) pre →
  Forall (fun r => is_join r = false) post →
  msg_type message = Some "join"%string →
  uuid ≠ EmptyString →
  uuid ∉ (ShooterServer.players s).*1 →
  let s' := (_handle_client w (pre ++ Data (Object message) uuid now :: post) s).1 in
  ShooterServer.players s' = ShooterServer.players s ∧
  ShooterServer.max_players s' = ShooterServer.max_players s.
Proof.
  intros Hpre Hpost Hj Hne Hfresh. unfold _handle_client.
  destruct (read_loop_unjoined_app w pre (Data (Object message) uuid now :: post) s Hpre)
    as [-> | [r ->]]; [|done].
  cbn [read_loop handler_turn]. unfold on_message. rewrite decide_True by done.
  destruct (Z.le_gt_cases (ShooterServer.max_players s)
              (Z.of_nat (length (ShooterServer.players s)))) as [Hfull|Hroom].
  - rewrite on_join_full by done. by destruct (drain w (ShooterServer.streams s)).
  - rewrite on_join_room by done. rewrite dict_set_fresh by done.
    destruct (drain w (ShooterServer.streams s)) as [e|]; cbn [raised_or].
    + cbn [fst]. split; [by eapply disconnect_last|].
      by rewrite (proj1 (disconnect_registry _ _ _)).
    + match goal with |- context [read_loop w post (Some uuid) ?s2] =>
        destruct (read_loop_joined w post uuid (ShooterServer.players s) _ s2
                    Hpost Hfresh eq_refl) as (s' & state' & r & -> & Hp & Hm) end.
      cbn [fst]. split.
      * by eapply disconnect_last.
      * by rewrite (proj1 (disconnect_registry _ _ _)), Hm.
Qed.

Lemma joined_connection_leaves_registry_as_found_witness :
  let input :=
    [Data NotJson "u0" 0.5%float;
     Data (Object (join_message (Some "Cy"%string))) "c3" 1.0%float;
     Data (Object (state_message (Some origin) (Some 40))) "u1" 2.0%float;
     Data (Object (shoot_message (Some origin) (Some origin))) "u2" 3.0%float;
     ReadRaises BrokenPipeError] in
  let s' := (_handle_client 2 input (lobby three_writers)).1 in
  ShooterServer.players s' = ShooterServer.players (lobby three_writers) ∧
  ShooterServer.max_players s' = ShooterServer.max_players (lobby three_writers).
Proof.
  apply (joined_connection_leaves_registry_as_found 2
           [Data NotJson "u0" 0.5%float] (join_message (Some "Cy"%string)) "c3" 1.0%float
           [Data (Object (state_message (Some origin) (Some 40))) "u1" 2.0%float;
            Data (Object (shoot_message (Some origin) (Some origin))) "u2" 3.0%float;
            ReadRaises BrokenPipeError]
           (lobby three_writers)).
  - repeat constructor.
  - repeat constructor.
  - reflexivity.
  - discriminate.
  - vm_compute. intros H. repeat (apply elem_of_cons in H as [H|H]; [discriminate H|]).
    by apply elem_of_nil in H.
Defined.

(** ** A broadcast that fails *)

Lemma sessions_on_cons w p recipients :
  sessions_on w (p :: recipients) =
  ((if decide (PlayerState.writer p = w) then 1 else 0) + sessions_on w recipients)%nat.
Proof.
  unfold sessions_on. rewrite filter_cons.
  by destruct (decide (PlayerState.writer p = w)).
Qed.

Lemma send_each_stops message before p after (streams : gmap nat StreamWriter) e :
  Forall (open_or_reset streams) before →
  drain (PlayerState.writer p) streams = Some e →
  e ≠ ConnectionResetError →
  (send_each message (before ++ p :: after) streams).2 = Some e ∧
  ∀ w, (send_each message (before ++ p :: after) streams).1 !! w =
       buffered (replicate (sessions_on w (before ++ [p])) message) <$> streams !! w.
Proof.
  intros Hall Hp He. revert streams Hall Hp.
  induction before as [|q before IH]; intros streams Hall Hp; simpl.
  - rewrite drain_write, Hp.
    assert (Hw : ∀ w, write (PlayerState.writer p) message streams !! w =
                      buffered (replicate (sessions_on w [p]) message) <$> streams !! w).
    { intros w. rewrite sessions_on_cons. unfold sessions_on. simpl.
      destruct (decide (PlayerState.writer p = w)) as [<-|Hne]; simpl.
      - apply write_lookup.
      - rewrite write_lookup_ne by done.
        destruct (streams !! w) as [sw|]; simpl; [|done]. by rewrite buffered_nil. }
    by destruct e.
  - apply Forall_cons in Hall as [Hq Hall].
    set (st1 := write (PlayerState.writer q) message streams).
    assert (Hall1 : Forall (open_or_reset st1) before).
    { eapply Forall_impl; [exact Hall|]. intros r. unfold open_or_reset, st1.
      by rewrite drain_write. }
    assert (Hp1 : drain (PlayerState.writer p) st1 = Some e).
    { unfold st1. by rewrite drain_write. }
    destruct (IH st1 Hall1 Hp1) as [IHr IHw].
    assert (Hgo : ∀ w, (send_each message (before ++ p :: after) st1).1 !! w =
                       buffered (replicate (sessions_on w (q :: before ++ [p])) message)
                         <$> streams !! w).
    { intros w. rewrite IHw. unfold st1. rewrite write_buffered.
      rewrite sessions_on_cons.
      destruct (decide (PlayerState.writer q = w)); done. }
    replace (drain (PlayerState.writer q) st1) with (drain (PlayerState.writer q) streams)
      by (unfold st1; by rewrite drain_write).
    destruct Hq as [-> | ->]; done.
Qed.

(** X13. The broadcast stops at the first recipient whose connection
    answers [drain] with an exception other than [ConnectionResetError]:
    that exception leaves [_broadcast_state]; the snapshot has been written
    once per session to the writers of the sessions up to and including
    that one, and a writer that only later sessions use has received
    nothing. Sessions and projectiles are as before. *)
Theorem broadcast_stops_at_first_failure s before pid p after e :
  ShooterServer.players s = before ++ (pid, p) :: after →
  Forall (open_or_reset (ShooterServer.streams s)) before.*2 →
  drain (PlayerState.writer p) (ShooterServer.streams s) = Some e →
  e ≠ ConnectionResetError →
  ∃ streams',
    _broadcast_state s = (ShooterServer.set_streams streams' s, Some e) ∧
    ∀ w, streams' !! w =
         buffered (replicate (sessions_on w (before.*2 ++ [p])) (world_state s))
           <$> ShooterServer.streams s !! w.
Proof.
  intros Hs Hall Hp He. unfold _broadcast_state.
  assert (Hrec : (ShooterServer.players s).*2 = before.*2 ++ p :: after.*2).
  { by rewrite Hs, fmap_app, fmap_cons. }
  rewrite Hrec.
  destruct (send_each_stops (world_state s) before.*2 p after.*2 _ e Hall Hp He)
    as [Hr Hw].
  destruct (send_each _ _ _) as [streams' r]. simpl in *. subst r. eauto.
Qed.

Lemma broadcast_stops_at_first_failure_witness :
  ∃ streams',
    _broadcast_state broken_pipe_server =
      (ShooterServer.set_streams streams' broken_pipe_server, Some BrokenPipeError) ∧
    ∀ w, streams' !! w =
         buffered (replicate (sessions_on w ([] ++ [session 0 "Target" origin 100]))
                             (world_state broken_pipe_server))
           <$> ShooterServer.streams broken_pipe_server !! w.
Proof.
  apply (broadcast_stops_at_first_failure broken_pipe_server [] "target"
           (session 0 "Target" origin 100)
           [("shooter"%string, session 1 "Shooter" [5.0; 0.0; 0.0]%float 100)]
           BrokenPipeError).
  - reflexivity.
  - constructor.
  - vm_compute. reflexivity.
  - discriminate.
Defined.

(** ** The client's reading of a damage notification *)

(** X14. Client and server agree on a hit: from the same health, the
    client's handling of the damage notification (game.py, with its clamp
    at 0) arrives at the health the server has stored after the hit, and
    the client moves to the respawn point exactly when the server has
    moved the session there. *)
Theorem client_follows_server_on_damage p :
  client_on_damage BULLET_DAMAGE (PlayerState.health p) =
  (PlayerState.health (respawned (damaged p)),
   PlayerState.health (damaged p) <=? 0).
Proof.
  unfold client_on_damage, respawned, damaged, BULLET_DAMAGE. simpl.
  destruct (Z.leb_spec (PlayerState.health p - 25) 0) as [H|H].
  - rewrite Z.max_l by lia. simpl. done.
  - rewrite Z.max_r by lia. rewrite (proj2 (Z.leb_gt _ _) H). done.
Qed.

(** ** Positions that are not triples *)

Lemma zip_with_common_prefix {A B C : Type} (f : A → B → C) (a : list A) (b : list B) :
  zip_with f a b = zip_with f (take (length b) a) (take (length a) b).
Proof.
  revert b. induction a as [|x a IH]; intros [|y b]; simpl; [done..|].
  by rewrite <- IH.
Qed.

(** X15. [_distance_sq] compares two positions on their common axes only:
    coordinates one list has beyond the length of the other do not count.
    So a session whose position is the empty list is within range of every
    projectile, wherever the projectile is. *)
Theorem distance_counts_common_axes_only a b bullet player :
  _distance_sq a b = _distance_sq (take (length b) a) (take (length a) b) ∧
  in_range bullet (PlayerState.set_position [] player) = true.
Proof.
  split.
  - unfold _distance_sq. by rewrite zip_with_common_prefix.
  - unfold in_range, _distance_sq. simpl. rewrite zip_with_nil_r. reflexivity.
Qed.

(** ** The client's receiver *)

Lemma append_nil_r a : (a +:+ "")%string = a.
Proof. induction a as [|c a IH]; [done|]. by rewrite append_cons, IH. Qed.

Lemma append_snoc a c b : ((a +:+ String c "") +:+ b)%string = (a +:+ String c b)%string.
Proof. induction a as [|c0 a IH]; [done|]. by rewrite !append_cons, IH. Qed.

Lemma append_length a b :
  String.length (a +:+ b) = (String.length a + String.length b)%nat.
Proof. induction a as [|c a IH]; [done|]. rewrite append_cons. simpl. by rewrite IH. Qed.

Lemma append_assoc a b c : ((a +:+ b) +:+ c)%string = (a +:+ (b +:+ c))%string.
Proof. induction a as [|c0 a IH]; [done|]. by rewrite !append_cons, IH. Qed.

Lemma split_line_shorter buffer raw after :
  split_line buffer = Some (raw, after) → (String.length after < String.length buffer)%nat.
Proof.
  revert raw after. induction buffer as [|c rest IH]; intros raw after; simpl; [done|].
  destruct (decide (c = line_feed)).
  - intros [= <- <-]. lia.
  - destruct (split_line rest) as [[r a]|] eqn:E; [|done].
    intros [= <- <-]. specialize (IH _ _ eq_refl). lia.
Qed.

Lemma split_line_snoc raw c :
  split_line raw = None → c ≠ line_feed → split_line (raw +:+ String c "") = None.
Proof.
  intros Hraw Hc. revert Hraw. induction raw as [|c0 raw IH]; intros Hraw.
  - rewrite append_empty. cbn [split_line]. by rewrite decide_False.
  - rewrite append_cons. cbn [split_line] in *.
    destruct (decide (c0 = line_feed)); [done|].
    destruct (split_line raw) as [[r a]|]; [done|]. by rewrite IH.
Qed.

Section ReceiveLoopFacts.
Context {D : Type}.
Variable loads : string → Decoded D.
Variable get_type : D → option string.
Variable get_player_id : D → option string.


Lemma read_stream_split raw0 buffer (client : NetworkClient.t D) :
  read_stream loads get_type get_player_id raw0 buffer client =
  match split_line buffer with
  | None => (client, (raw0 +:+ buffer)%string, None)
  | Some (raw, after) =>
      match on_raw loads get_type get_player_id (raw0 +:+ raw)%string client with
      | (client', Some e) => (client', after, Some e)
      | (client', None) => read_stream loads get_type get_player_id EmptyString after client'
      end
  end.
Proof.
  revert raw0. induction buffer as [|c rest IH]; intros raw0; simpl.
  - by rewrite append_nil_r.
  - destruct (decide (c = line_feed)) as [Hc|Hc].
    + by rewrite append_nil_r.
    + rewrite IH. destruct (split_line rest) as [[raw after]|].
      * by rewrite append_snoc.
      * by rewrite append_snoc.
Qed.

(** The fuel is enough: the inner loop ends because no line feed is left
    or with an exception. *)
Lemma take_lines_read fuel buffer (client : NetworkClient.t D) :
  (String.length buffer <= fuel)%nat →
  take_lines loads get_type get_player_id fuel buffer client =
  read_stream loads get_type get_player_id EmptyString buffer client.
Proof.
  revert buffer client. induction fuel as [|fuel IH]; intros buffer client Hlen.
  - destruct buffer; [done|simpl in Hlen; lia].
  - rewrite read_stream_split. simpl.
    destruct (split_line buffer) as [[raw after]|] eqn:E; rewrite append_empty; [|done].
    apply split_line_shorter in E.
    destruct (on_raw loads get_type get_player_id raw client) as [client' [e|]]; [done|].
    apply IH. lia.
Qed.

Lemma read_stream_app raw x y (client : NetworkClient.t D) :
  read_stream loads get_type get_player_id raw (x +:+ y) client =
  match read_stream loads get_type get_player_id raw x client with
  | (client', rest, Some e) => (client', (rest +:+ y)%string, Some e)
  | (client', raw', None) => read_stream loads get_type get_player_id raw' y client'
  end.
Proof.
  revert raw client. induction x as [|c x IH]; intros raw client; [done|].
  rewrite append_cons. simpl. destruct (decide (c = line_feed)) as [Hc|Hc].
  - destruct (on_raw loads get_type get_player_id raw client) as [client' [e|]]; [done|]. apply IH.
  - apply IH.
Qed.

Lemma read_stream_rest raw x (client : NetworkClient.t D) :
  split_line raw = None →
  (read_stream loads get_type get_player_id raw x client).2 = None →
  split_line (read_stream loads get_type get_player_id raw x client).1.2 = None.
Proof.
  revert raw client. induction x as [|c x IH]; intros raw client Hraw; simpl; [done|].
  destruct (decide (c = line_feed)) as [Hc|Hc].
  - destruct (on_raw loads get_type get_player_id raw client) as [client' [e|]]; [done|].
    by apply IH.
  - apply IH. by apply split_line_snoc.
Qed.

Lemma receive_loop_read chunks more buffer (client : NetworkClient.t D) :
  split_line buffer = None →
  Forall (fun chunk => chunk ≠ EmptyString) chunks →
  receive_loop loads get_type get_player_id ((Chunk <$> chunks) ++ more) buffer client =
  match read_stream loads get_type get_player_id buffer (joined chunks) client with
  | (client', _, Some e) => (client', Some e)
  | (client', buffer', None) => receive_loop loads get_type get_player_id more buffer' client'
  end.
Proof.
  intros Hbuf Hall. revert buffer client Hbuf.
  induction Hall as [|chunk chunks Hne Hall IH]; intros buffer client Hbuf; [done|].
  rewrite fmap_cons. cbn [app joined foldr]. fold (joined chunks).
  rewrite read_stream_app.
  destruct chunk as [|c chunk]; [done|]. cbn [receive_loop].
  rewrite take_lines_read by done. rewrite read_stream_app.
  rewrite (read_stream_split EmptyString buffer), Hbuf, append_empty.
  pose proof (read_stream_rest buffer (String c chunk) client Hbuf) as Hrest.
  destruct (read_stream loads get_type get_player_id buffer (String c chunk) client)
    as [[client' buffer'] [e|]]; [done|].
  apply IH. by apply Hrest.
Qed.

Lemma joined_not_empty chunk chunks :
  chunk ≠ EmptyString → joined (chunk :: chunks) ≠ EmptyString.
Proof. intros Hne. simpl. by destruct chunk. Qed.

(** X16. What the receiver delivers does not depend on how the transport
    cuts the stream into chunks: for any chunks, none of them empty,
    followed by anything, the receiver ends with the same messages queued,
    the same [player_id] and the same exception, if any, as when the bytes
    of the chunks arrive in one piece. *)
Theorem receiver_is_independent_of_chunking chunks more (client : NetworkClient.t D) :
  chunks ≠ [] →
  Forall (fun chunk => chunk ≠ EmptyString) chunks →
  _receive_loop loads get_type get_player_id ((Chunk <$> chunks) ++ more) client =
  _receive_loop loads get_type get_player_id (Chunk (joined chunks) :: more) client.
Proof.
  intros Hsome Hall. unfold _receive_loop.
  rewrite receive_loop_read by done.
  assert (Hj : joined chunks ≠ EmptyString).
  { destruct chunks as [|chunk chunks]; [done|].
    apply Forall_cons in Hall as [Hne _]. by apply joined_not_empty. }
  change (Chunk (joined chunks) :: more) with ((Chunk <$> [joined chunks]) ++ more).
  rewrite receive_loop_read by (done || by repeat constructor).
  simpl. by rewrite append_nil_r.
Qed.

(** X17. A line that is not UTF-8, or that is JSON but no object, ends
    the receiver with an exception the loop does not catch: nothing of
    what the server sends after such a line is delivered, whatever
    follows. A line that is not JSON counts as an empty line. *)
Theorem undecodable_line_ends_receiver raw later more (client : NetworkClient.t D) :
  raw ≠ EmptyString →
  split_line raw = None →
  let input := Chunk (raw +:+ String line_feed later) :: more in
  (loads raw = BadUtf8 →
   _receive_loop loads get_type get_player_id input client =
   (client, Some UnicodeDecodeError)) ∧
  (loads raw = NoObject →
   _receive_loop loads get_type get_player_id input client =
   (client, Some AttributeError)) ∧
  (loads raw = BadJson →
   _receive_loop loads get_type get_player_id input client =
   _receive_loop loads get_type get_player_id
     (Chunk (String line_feed later) :: more) client).
Proof.
  intros Hne Hraw input.
  assert (Hin : _receive_loop loads get_type get_player_id input client =
                match on_raw loads get_type get_player_id raw client with
                | (client', Some e) => (client', Some e)
                | (client', None) =>
                    match read_stream loads get_type get_player_id EmptyString later client' with
                    | (client'', _, Some e) => (client'', Some e)
                    | (client'', buffer', None) =>
                        receive_loop loads get_type get_player_id more buffer' client''
                    end
                end).
  { unfold _receive_loop, input.
    change (Chunk (raw +:+ String line_feed later) :: more)
      with ((Chunk <$> [(raw +:+ String line_feed later)%string]) ++ more).
    rewrite receive_loop_read; [|done|].
    2:{ constructor; [|constructor]. by destruct raw. }
    cbn [joined foldr]. rewrite append_nil_r. rewrite read_stream_app.
    rewrite (read_stream_split EmptyString raw), Hraw, append_empty.
    cbn [read_stream]. rewrite decide_True by done.
    by destruct (on_raw loads get_type get_player_id raw client) as [client' [e|]]. }
  assert (Hskip : _receive_loop loads get_type get_player_id
                    (Chunk (String line_feed later) :: more) client =
                  match read_stream loads get_type get_player_id EmptyString later client with
                  | (client'', _, Some e) => (client'', Some e)
                  | (client'', buffer', None) =>
                      receive_loop loads get_type get_player_id more buffer' client''
                  end).
  { unfold _receive_loop.
    change (Chunk (String line_feed later) :: more)
      with ((Chunk <$> [String line_feed later]) ++ more).
    rewrite receive_loop_read by (done || by repeat constructor).
    cbn [joined foldr]. rewrite append_nil_r. cbn [read_stream].
    by rewrite decide_True by done. }
  rewrite Hin, Hskip. unfold on_raw.
  destruct raw as [|c raw]; [done|].
  repeat split; by intros ->.
Qed.
End ReceiveLoopFacts.

Lemma receiver_is_independent_of_chunking_witness :
  _receive_loop sample_loads sample_type Some
    ((Chunk <$> sample_chunks) ++ [RecvRaises]) fresh_client =
  _receive_loop sample_loads sample_type Some
    (Chunk (joined sample_chunks) :: [RecvRaises]) fresh_client.
Proof.
  apply (receiver_is_independent_of_chunking sample_loads sample_type Some
           sample_chunks [RecvRaises] fresh_client).
  - discriminate.
  - repeat constructor; intros H; vm_compute in H; discriminate H.
Defined.

(** The chunks of the scenario deliver the welcome and the second message;
    the line that is not JSON is skipped and the line begun last is not
    delivered. *)
Example sample_chunks_are_delivered :
  _receive_loop sample_loads sample_type Some
    ((Chunk <$> sample_chunks) ++ [RecvRaises]) fresh_client =
  (NetworkClient.mk (Some "welcome"%string) ["welcome"; "damage"]%string, None).
Proof. vm_compute. reflexivity. Qed.

Lemma undecodable_line_ends_receiver_witness :
  _receive_loop sample_loads sample_type Some
    [Chunk ("!" +:+ String line_feed "welcome"); Chunk newline] fresh_client =
    (fresh_client, Some UnicodeDecodeError) ∧
  _receive_loop sample_loads sample_type Some
    [Chunk ("[]" +:+ String line_feed "welcome"); Chunk newline] fresh_client =
    (fresh_client, Some AttributeError) ∧
  _receive_loop sample_loads sample_type Some
    [Chunk ("?" +:+ String line_feed "welcome"); Chunk newline] fresh_client =
  _receive_loop sample_loads sample_type Some
    [Chunk (String line_feed "welcome"); Chunk newline] fresh_client.
Proof.
  split; [|split].
  - apply (proj1 (undecodable_line_ends_receiver sample_loads sample_type Some
                    "!" "welcome" [Chunk newline] fresh_client
                    ltac:(discriminate) eq_refl)).
    reflexivity.
  - apply (proj1 (proj2 (undecodable_line_ends_receiver sample_loads sample_type Some
                           "[]" "welcome" [Chunk newline] fresh_client
                           ltac:(discriminate) eq_refl))).
    reflexivity.
  - apply (proj2 (proj2 (undecodable_line_ends_receiver sample_loads sample_type Some
                           "?" "welcome" [Chunk newline] fresh_client
                           ltac:(discriminate) eq_refl))).
    reflexivity.
Defined.

(** ** The list of servers a scan returns *)








